(** * Transit-network analytics: a shallow embedding of [challenge.py]

    The program answers three questions about a subway network that it
    discovers through a remote API: the list of routes, per-route stop
    statistics with the transfer stops, and a hop-minimal path between two
    stops.  This file embeds the program's functions and proves the
    properties its specification states about them.

    Conventions of the embedding:
    - a Python [str] is a [string]; a [list] is a [list];
    - a [dict] that is only looked up (the adjacency map inside [bfs], the
      response cache) is a [gmap]; a [dict] whose iteration order is
      observable (route-to-stops, stop-to-routes) is an association list in
      insertion order;
    - a raised exception is the left injection of a sum; the state that
      survives an exception (the cache) is threaded explicitly;
    - the [while] loop of [bfs] is a [Fixpoint] on a step budget, and the
      budget computed by [bfs_fuel] is proved sufficient. *)

From stdpp Require Import gmap strings list fin_maps.
From Stdlib Require Import ZArith.

Open Scope string_scope.
Open Scope list_scope.
Open Scope nat_scope.

(** ** Path Finder: [bfs] *)

Module Bfs.

(** [neighbors[node]] on the [defaultdict] that [compute_route_between]
    passes in: an absent key reads as the empty collection.  (The
    [defaultdict] also stores that empty collection under the key, which no
    later read of [bfs] can tell apart from the key being absent.)  The
    collection is iterated in the order of the list. *)
Definition neighbors_of (neighbors : gmap string (list string)) (node : string)
  : list string :=
  default [] (neighbors !! node).

(** The [for neighbor in neighbors[curr_node]] loop: every neighbour that is
    not yet in [visited] is appended to [visited] and enqueued with the
    path that led to [curr_node], extended by [curr_node]. *)
Fixpoint scan (nbrs : list string) (curr_node : string) (path : list string)
    (visited : list string) (queue : list (string * list string))
  : list string * list (string * list string) :=
  match nbrs with
  | [] => (visited, queue)
  | neighbor :: rest =>
      if decide (neighbor ∈ visited)
      then scan rest curr_node path visited queue
      else scan rest curr_node path
             (visited ++ [neighbor])
             (queue ++ [(neighbor, path ++ [curr_node])])
  end.

(** What a run of the [while] loop produces: it either returns a value
    ([None] or a path) or is cut off by the step budget. *)
Inductive result : Type :=
  | OutOfFuel
  | Return (value : option (list string)).

(** The [while queue:] loop; one unit of [fuel] per iteration. *)
Fixpoint bfs_loop (fuel : nat) (neighbors : gmap string (list string))
    (end_ : string) (visited : list string)
    (queue : list (string * list string)) : result :=
  match fuel with
  | O => OutOfFuel
  | S fuel' =>
      match queue with
      | [] => Return None
      | (curr_node, path) :: queue' =>
          if decide (curr_node = end_)
          then Return (Some (path ++ [curr_node]))
          else
            let '(visited', queue'') :=
              scan (neighbors_of neighbors curr_node) curr_node path
                   visited queue' in
            bfs_loop fuel' neighbors end_ visited' queue''
      end
  end.

(** Every label the search can ever put in [visited]: the start and
    whatever occurs in some neighbour collection. *)
Definition universe (neighbors : gmap string (list string)) (start : string)
  : list string :=
  start :: mjoin (map_to_list neighbors).*2.

(** A step budget that the loop never exhausts (see [bfs_loop_fuel]). *)
Definition bfs_fuel (neighbors : gmap string (list string)) (start : string)
  : nat :=
  S (length (universe neighbors start)).

Definition bfs (neighbors : gmap string (list string)) (start end_ : string)
  : result :=
  bfs_loop (bfs_fuel neighbors start) neighbors end_ [start] [(start, [])].

(** *** Graph vocabulary used by the statements *)

(** The labels of the map: its keys and the members of its neighbour
    collections. *)
Definition labels (neighbors : gmap string (list string)) : list string :=
  (map_to_list neighbors).*1 ++ mjoin (map_to_list neighbors).*2.

(** A label is present in the map when it is a key or occurs in some
    neighbour collection. *)
Definition present (neighbors : gmap string (list string)) (x : string) : Prop :=
  x ∈ labels neighbors.

(** Consecutive elements of [p] are joined by an edge of the map. *)
Fixpoint chain (neighbors : gmap string (list string)) (p : list string)
  : Prop :=
  match p with
  | a :: (b :: _) as tl => b ∈ neighbors_of neighbors a ∧ chain neighbors tl
  | _ => True
  end.

(** [p] is a path of the map from [s] to [e]. *)
Definition is_path (neighbors : gmap string (list string)) (s e : string)
    (p : list string) : Prop :=
  head p = Some s ∧ last p = Some e ∧ chain neighbors p.

(** Number of edges of a path given as its list of nodes. *)
Definition hop_count (p : list string) : nat := pred (length p).

Definition connected (neighbors : gmap string (list string)) (s e : string)
  : Prop :=
  ∃ p, is_path neighbors s e p.

(** [hops g s k v]: [v] is reached from [s] by following [k] edges. *)
Inductive hops (neighbors : gmap string (list string)) (s : string)
  : nat → string → Prop :=
  | hops_O : hops neighbors s 0 s
  | hops_S k u w :
      hops neighbors s k u →
      w ∈ neighbors_of neighbors u →
      hops neighbors s (S k) w.

(** The neighbours that one run of [scan] adds, in the order it adds
    them: those not in [visited], each once. *)
Fixpoint fresh (nbrs : list string) (visited : list string) : list string :=
  match nbrs with
  | [] => []
  | neighbor :: rest =>
      if decide (neighbor ∈ visited) then fresh rest visited
      else neighbor :: fresh rest (visited ++ [neighbor])
  end.

(** The loop invariant of [bfs_loop], relating [visited] and [queue] at the
    head of the [while] loop. *)
Record inv (neighbors : gmap string (list string)) (start end_ : string)
    (visited : list string) (queue : list (string * list string)) : Prop := {
  inv_start : start ∈ visited;
  inv_nodup : NoDup visited;
  inv_universe : ∀ x, x ∈ visited → x ∈ universe neighbors start;
  inv_in_visited : ∀ v p, (v, p) ∈ queue →
      v ∈ visited ∧ ∀ x, x ∈ p → x ∈ visited;
  inv_path : ∀ v p, (v, p) ∈ queue →
      is_path neighbors start v (p ++ [v]) ∧ NoDup (p ++ [v]);
  inv_shortest : ∀ v p k, (v, p) ∈ queue →
      hops neighbors start k v → length p ≤ k;
  inv_levels : ∃ d q1 q2, queue = q1 ++ q2 ∧
      Forall (λ e, length e.2 = d) q1 ∧
      Forall (λ e, length e.2 = S d) q2;
  inv_closed : ∀ u, u ∈ visited →
      u ∈ queue.*1 ∨
      (u ≠ end_ ∧ ∀ w, w ∈ neighbors_of neighbors u → w ∈ visited)
}.

(** The network of the end-to-end scenario: route Red serving Ashmont,
    Park and Arlington, route Green serving Park and Arlington. *)
Definition example_network : gmap string (list string) :=
  {[ "Ashmont" := ["Red"];
     "Park" := ["Red"; "Green"];
     "Arlington" := ["Red"; "Green"];
     "Red" := ["Ashmont"; "Park"; "Arlington"];
     "Green" := ["Park"; "Arlington"] ]}.

End Bfs.

(** ** The Transit Data Source and the Fetch Cache *)

Module Fetch.

(** The exceptions the program can raise, by the place that raises them.
    [JSONDecodeError] stands for whatever [.json()['data']] raises on a
    payload it cannot use (in Python the decoding error itself is a
    subclass of [ValueError]); [ValueError] stands for the one that [min]
    and [max] raise on an empty iterable. *)
Inductive exception : Type :=
  | ConnectionError          (* [requests.get] obtained no response *)
  | HTTPError (status : Z)   (* [resp.raise_for_status()] *)
  | JSONDecodeError          (* [.json()['data']] on an unusable payload *)
  | ValueError.              (* [min]/[max] of an empty iterable *)

(** A record of the API, read by the program as [r['id']],
    [r['attributes']['long_name']] (routes) and
    [r['attributes']['name']] (stops). *)
Record attributes : Type := { long_name : string; name : string }.
Record resource : Type := { res_id : string; res_attributes : attributes }.

(** A [requests.Response]: its status code, and what [.json()['data']]
    evaluates to ([None] when that expression raises). *)
Record response : Type := {
  status_code : Z;
  json_data : option (list resource)
}.

(** [Response.raise_for_status] of the [requests] library raises for the
    4xx and 5xx codes and returns for every other code. *)
Definition raise_for_status (resp : response) : exception + unit :=
  if decide (400 ≤ status_code resp < 600)%Z
  then inl (HTTPError (status_code resp))
  else inr tt.

(** [.json()['data']] *)
Definition json (resp : response) : exception + list resource :=
  match json_data resp with
  | Some data => inr data
  | None => inl JSONDecodeError
  end.

(** The module-level [api_key = '']; [main] assigns a local of the same
    name, so the global keeps this value. *)
Definition api_key : string := "".

Definition headers : list (string * string) :=
  if decide (api_key = "") then [] else [("X-API-KEY", api_key)].

Definition routes_url : string :=
  "https://api-v3.mbta.com/routes?filter[type]=0,1".

Definition stops_url (route_id : string) : string :=
  String.append "https://api-v3.mbta.com/stops?filter[route]=" route_id.

Section WithDataSource.

(** The remote side: [requests.get url headers] either yields a response
    or fails in transport, and may change the remote side's own state. *)
Context {World : Type}.
Variable requests_get :
  string → list (string * string) → World → option response * World.

(** The process state: the module-level [cache] dictionary, the remote
    side, and (instrumentation) the URLs for which [requests.get] was
    invoked, oldest first. *)
Record state : Type := {
  cache : gmap string response;
  world : World;
  calls : list string
}.

Definition init (w : World) : state :=
  {| cache := ∅; world := w; calls := [] |}.

(** Computations that read and write the process state and may raise;
    the state reached when an exception is raised is kept. *)
Definition M (A : Type) : Type := state → (exception + A) * state.

Definition ret {A} (a : A) : M A := λ st, (inr a, st).
Definition raise {A} (e : exception) : M A := λ st, (inl e, st).
Definition bind {A B} (m : M A) (k : A → M B) : M B :=
  λ st, match m st with
        | (inr a, st') => k a st'
        | (inl e, st') => (inl e, st')
        end.
Definition lift {A} (r : exception + A) : M A := λ st, (r, st).

(** [for x in l: acc = f acc x], where the body may raise. *)
Fixpoint for_each {A S} (f : S → A → M S) (l : list A) (acc : S) : M S :=
  match l with
  | [] => ret acc
  | x :: l' => bind (f acc x) (for_each f l')
  end.

Definition get_cached (url : string) : M response :=
  λ st,
    match cache st !! url with
    | Some resp => (inr resp, st)
    | None =>
        let '(outcome, w') := requests_get url headers (world st) in
        let contacted :=
          {| cache := cache st; world := w'; calls := calls st ++ [url] |} in
        match outcome with
        | None => (inl ConnectionError, contacted)
        | Some resp =>
            match raise_for_status resp with
            | inl e => (inl e, contacted)
            | inr _ =>
                (inr resp,
                 {| cache := <[url := resp]> (cache st);
                    world := w';
                    calls := calls st ++ [url] |})
            end
        end
    end.

Definition get_all_subway_routes : M (list resource) :=
  bind (get_cached routes_url) (λ resp, lift (json resp)).

Definition get_all_stops_for_route (route_id : string) : M (list resource) :=
  bind (get_cached (stops_url route_id)) (λ resp, lift (json resp)).

(** A process lifetime as far as the cache is concerned: a sequence of
    [get_cached] calls, ended by the first exception (the program has no
    handler). *)
Fixpoint session (urls : list string) : M (list response) :=
  match urls with
  | [] => ret []
  | url :: urls' =>
      bind (get_cached url) (λ resp,
      bind (session urls') (λ resps, ret (resp :: resps)))
  end.

End WithDataSource.

Arguments state : clear implicits.
Arguments M : clear implicits.

(** [st'] holds every cache entry of [st]. *)
Definition cache_le {World} (st st' : state World) : Prop :=
  ∀ url resp, cache st !! url = Some resp → cache st' !! url = Some resp.

(** The log of contacted URLs agrees with the cache: each URL was
    contacted once and its response is stored. *)
Definition consistent {World} (st : state World) : Prop :=
  NoDup (calls st) ∧ ∀ url, url ∈ calls st → is_Some (cache st !! url).

(** *** Stub Data Sources *)




Definition route (id long : string) : resource :=
  {| res_id := id; res_attributes := {| long_name := long; name := "" |} |}.

Definition stop (id nm : string) : resource :=
  {| res_id := id; res_attributes := {| long_name := ""; name := nm |} |}.

Definition ok (data : list resource) : option response :=
  Some {| status_code := 200; json_data := Some data |}.

Definition not_found : option response :=
  Some {| status_code := 404; json_data := None |}.

(** The Data Source of the end-to-end scenario: route Red with stops
    Ashmont, Park and Arlington, route Green with stops Park and
    Arlington. *)
Definition scenario_source (url : string) (hdrs : list (string * string))
    (w : unit) : option response * unit :=
  if decide (url = routes_url) then
    (ok [route "Red" "Red"; route "Green" "Green"], w)
  else if decide (url = stops_url "Red") then
    (ok [stop "place-asmnl" "Ashmont"; stop "place-pktrm" "Park";
         stop "place-armnl" "Arlington"], w)
  else if decide (url = stops_url "Green") then
    (ok [stop "place-pktrm" "Park"; stop "place-armnl" "Arlington"], w)
  else (not_found, w).

(** A Data Source whose route Red lists three platforms of one station,
    all under the station's name. *)
Definition platform_source (url : string) (hdrs : list (string * string))
    (w : unit) : option response * unit :=
  if decide (url = routes_url) then
    (ok [route "Red" "Red"; route "Green" "Green"], w)
  else if decide (url = stops_url "Red") then
    (ok [stop "70093" "Ashmont"; stop "70094" "Ashmont";
         stop "70095" "Ashmont"], w)
  else if decide (url = stops_url "Green") then
    (ok [stop "place-pktrm" "Park"; stop "place-armnl" "Arlington"], w)
  else (not_found, w).

End Fetch.

(** ** Route Statistics *)

Module Stats.
Import Fetch.

(** A [dict] from names to lists of names, in insertion order. *)
Definition dict : Type := list (string * list string).

Definition keys (d : dict) : list string := d.*1.

(** [d[k]] for a key of [d]. *)
Fixpoint dict_get (d : dict) (k : string) : option (list string) :=
  match d with
  | [] => None
  | (k', v) :: d' => if decide (k' = k) then Some v else dict_get d' k
  end.

(** [d[k] = v]: an existing key keeps its position. *)
Fixpoint dict_set (k : string) (v : list string) (d : dict) : dict :=
  match d with
  | [] => [(k, v)]
  | (k', v') :: d' =>
      if decide (k' = k) then (k, v) :: d' else (k', v') :: dict_set k v d'
  end.

(** [d[k].append(x)] on a [defaultdict(lambda: [])]. *)
Fixpoint dict_append (k : string) (x : string) (d : dict) : dict :=
  match d with
  | [] => [(k, [x])]
  | (k', v') :: d' =>
      if decide (k' = k) then (k', v' ++ [x]) :: d'
      else (k', v') :: dict_append k x d'
  end.

(** [len(route_to_stops[val])], for [val] a key of the dictionary. *)
Definition num_stops (route_to_stops : dict) (val : string) : nat :=
  length (default [] (dict_get route_to_stops val)).

(** Python's [min(iterable, key=...)]: the first element with the least
    key; [ValueError] on an empty iterable. *)
Fixpoint min_from {A} (key : A → nat) (best : A) (l : list A) : A :=
  match l with
  | [] => best
  | x :: l' => min_from key (if (key x <? key best)%nat then x else best) l'
  end.

Definition py_min {A} (l : list A) (key : A → nat) : exception + A :=
  match l with
  | [] => inl ValueError
  | x :: l' => inr (min_from key x l')
  end.

(** Python's [max(iterable, key=...)]: the first element with the greatest
    key. *)
Fixpoint max_from {A} (key : A → nat) (best : A) (l : list A) : A :=
  match l with
  | [] => best
  | x :: l' => max_from key (if (key best <? key x)%nat then x else best) l'
  end.

Definition py_max {A} (l : list A) (key : A → nat) : exception + A :=
  match l with
  | [] => inl ValueError
  | x :: l' => inr (max_from key x l')
  end.

(** Lines 52-54 of [compute_route_with_least_stops], on the dictionary
    that [get_route_to_stops] returned. *)
Definition route_with_least_stops (route_to_stops : dict)
  : exception + (string * nat) :=
  match py_min (keys route_to_stops) (num_stops route_to_stops) with
  | inl e => inl e
  | inr route => inr (route, num_stops route_to_stops route)
  end.

(** Lines 61-63 of [compute_route_with_most_stops]. *)
Definition route_with_most_stops (route_to_stops : dict)
  : exception + (string * nat) :=
  match py_max (keys route_to_stops) (num_stops route_to_stops) with
  | inl e => inl e
  | inr route => inr (route, num_stops route_to_stops route)
  end.

(** Lines 41-43 of [q2]: the (stop, routes) items for which a line is
    printed, in the order they are printed. *)
Definition transfer_stops (stop_to_routes : dict) : dict :=
  filter (λ item, 1 < length item.2) stop_to_routes.

(** *** Vocabulary of the statements *)

(** The number of distinct names in a list of names. *)
Definition num_distinct (l : list string) : nat := length (remove_dups l).

(** The number of distinct stops of a route of the dictionary. *)
Definition distinct_stops (route_to_stops : dict) (route : string) : nat :=
  num_distinct (default [] (dict_get route_to_stops route)).

(** [route] is a route of the dictionary with the fewest distinct stops,
    and [n] is its number of distinct stops. *)
Definition fewest_distinct (route_to_stops : dict) (route : string) (n : nat)
  : Prop :=
  route ∈ keys route_to_stops ∧
  n = distinct_stops route_to_stops route ∧
  ∀ r, r ∈ keys route_to_stops → n ≤ distinct_stops route_to_stops r.

Definition most_distinct (route_to_stops : dict) (route : string) (n : nat)
  : Prop :=
  route ∈ keys route_to_stops ∧
  n = distinct_stops route_to_stops route ∧
  ∀ r, r ∈ keys route_to_stops → distinct_stops route_to_stops r ≤ n.

(** The route-to-stops dictionary built from [platform_source]: Red lists
    one stop name three times. *)
Definition repeated_stops : dict :=
  [("Red", ["Ashmont"; "Ashmont"; "Ashmont"]);
   ("Green", ["Park"; "Arlington"])].

(** The stop-to-routes dictionary built from [platform_source]: Ashmont
    lists one route name three times. *)
Definition repeated_routes : dict :=
  [("Ashmont", ["Red"; "Red"; "Red"]); ("Park", ["Green"]);
   ("Arlington", ["Green"])].

Section WithDataSource.

Context {World : Type}.
Variable requests_get :
  string → list (string * string) → World → option response * World.

Definition get_route_to_stops : M World dict :=
  bind (get_all_subway_routes requests_get) (λ routes,
    for_each
      (λ route_to_stops_dict route,
         bind (get_all_stops_for_route requests_get (res_id route))
           (λ stops,
              let route_name := long_name (res_attributes route) in
              ret (dict_set route_name
                     ((λ stop, name (res_attributes stop)) <$> stops)
                     route_to_stops_dict)))
      routes []).

Definition get_stop_to_routes : M World dict :=
  bind (get_all_subway_routes requests_get) (λ routes,
    for_each
      (λ stop_to_routes_dict route,
         bind (get_all_stops_for_route requests_get (res_id route))
           (λ stops,
              let route_name := long_name (res_attributes route) in
              ret (fold_left
                     (λ d stop,
                        dict_append (name (res_attributes stop)) route_name d)
                     stops stop_to_routes_dict)))
      routes []).

Definition compute_route_with_least_stops : M World (string * nat) :=
  bind get_route_to_stops (λ route_to_stops,
    lift (route_with_least_stops route_to_stops)).

Definition compute_route_with_most_stops : M World (string * nat) :=
  bind get_route_to_stops (λ route_to_stops,
    lift (route_with_most_stops route_to_stops)).

(** The transfer-stop part of [q2]. *)
Definition q2_transfer_stops : M World dict :=
  bind get_stop_to_routes (λ stop_to_routes,
    ret (transfer_stops stop_to_routes)).

End WithDataSource.

End Stats.

(** ** Adjacency Builder: [compute_route_between] *)

Module Adjacency.
Import Fetch.

(** [neighbors[a].add(b)] on a [defaultdict(lambda: set())]. *)
Definition add (a b : string) (neighbors : gmap string (gset string))
  : gmap string (gset string) :=
  <[a := default ∅ (neighbors !! a) ∪ {[b]}]> neighbors.

(** The two [add] statements of the inner loop body. *)
Definition add_pair (route_name : string)
    (neighbors : gmap string (gset string)) (stop : resource)
  : gmap string (gset string) :=
  let stop_name := name (res_attributes stop) in
  add route_name stop_name (add stop_name route_name neighbors).

(** Membership in [neighbors[a]], an absent key reading as the empty set. *)
Definition adjacent (neighbors : gmap string (gset string)) (a b : string)
  : Prop :=
  b ∈ default ∅ (neighbors !! a).

Section WithDataSource.

Context {World : Type}.
Variable requests_get :
  string → list (string * string) → World → option response * World.

(** Lines 121-127: the adjacency map. *)
Definition build_neighbors : M World (gmap string (gset string)) :=
  bind (get_all_subway_routes requests_get) (λ routes,
    for_each
      (λ neighbors route,
         bind (get_all_stops_for_route requests_get (res_id route))
           (λ stops,
              ret (fold_left
                     (add_pair (long_name (res_attributes route)))
                     stops neighbors)))
      routes ∅).

(** [bfs] iterates each neighbour set in some order; [elements] fixes
    one.  The theorems about [bfs] hold for every map of lists, and
    [Records.compute_route_between_in] is this function for an arbitrary
    iteration order. *)
Definition compute_route_between (stop1 stop2 : string) : M World Bfs.result :=
  bind build_neighbors (λ neighbors,
    ret (Bfs.bfs (elements <$> neighbors) stop1 stop2)).

(** The records the Data Source returned, as the cache holds them. *)
Definition cached_data (st : state World) (url : string)
    (data : list resource) : Prop :=
  ∃ resp, cache st !! url = Some resp ∧ json_data resp = Some data.

End WithDataSource.

End Adjacency.

(** ** The records behind the three analyses *)

Module Records.
Import Fetch Stats Adjacency.

Definition route_name (r : resource) : string := long_name (res_attributes r).
Definition stop_name (s : resource) : string := name (res_attributes s).

(** The cache of [st] holds the route records [routes] and, for each of
    them in turn, the stop records in [stopss]. *)
Definition loaded {World} (st : state World) (routes : list resource)
    (stopss : list (list resource)) : Prop :=
  cached_data st routes_url routes ∧
  Forall2 (λ r stops, cached_data st (stops_url (res_id r)) stops)
    routes stopss.

(** The (stop name, route name) pairs of the records, in the order the
    nested loops of the program meet them. *)
Definition pairs (routes : list resource) (stopss : list (list resource))
  : list (string * string) :=
  zip routes stopss ≫= λ p, (λ s, (stop_name s, route_name p.1)) <$> p.2.

(** The dictionary that lines 67-75 build from the records. *)
Definition route_to_stops_of (routes : list resource)
    (stopss : list (list resource)) : dict :=
  fold_left (λ d p, dict_set (route_name p.1) (stop_name <$> p.2) d)
    (zip routes stopss) [].

(** The dictionary that lines 78-88 build from the records. *)
Definition stop_to_routes_of (routes : list resource)
    (stopss : list (list resource)) : dict :=
  fold_left
    (λ d p, fold_left (λ d s, dict_append (stop_name s) (route_name p.1) d)
              p.2 d)
    (zip routes stopss) [].

(** The adjacency map that lines 121-127 build from the records. *)
Definition neighbors_of_records (routes : list resource)
    (stopss : list (list resource)) : gmap string (gset string) :=
  fold_left (λ g p, fold_left (add_pair (route_name p.1)) p.2 g)
    (zip routes stopss) ∅.

(** A computation that, once it has returned a value, returns the same
    value from every later state without changing that state, hence
    without contacting the Data Source. *)
Definition replayable {World A} (m : M World A) : Prop :=
  ∀ st a st', m st = (inr a, st') →
    cache_le st st' ∧
    ∀ st'', cache_le st' st'' → m st'' = (inr a, st'').

(** [p] leads from [s] to [e] along edges of the adjacency map. *)
Definition linked (g : gmap string (gset string)) (s e : string)
    (p : list string) : Prop :=
  head p = Some s ∧ last p = Some e ∧
  ∀ i a b, p !! i = Some a → p !! S i = Some b → adjacent g a b.

(** [iterate] turns each neighbour set of an adjacency map into the list
    of its members in some order, as iterating a Python [set] does: every
    member once, in an order that may depend on the map and on the key. *)
Definition iterates_sets
    (iterate : gmap string (gset string) → gmap string (list string))
  : Prop :=
  ∀ g a, Bfs.neighbors_of (iterate g) a ≡ₚ elements (default ∅ (g !! a)).

(** [compute_route_between] with the neighbour sets iterated as [iterate]
    says; [compute_route_between] itself is the instance in which every
    set is iterated in the order of [elements]. *)
Definition compute_route_between_in {World}
    (requests_get :
       string → list (string * string) → World → option response * World)
    (iterate : gmap string (gset string) → gmap string (list string))
    (stop1 stop2 : string) : M World Bfs.result :=
  bind (build_neighbors requests_get) (λ neighbors,
    ret (Bfs.bfs (iterate neighbors) stop1 stop2)).

(** Two results of the search agree: both are [None], or both are lists
    of the same length. *)
Definition same_length (res res' : Bfs.result) : Prop :=
  match res, res' with
  | Bfs.Return (Some p), Bfs.Return (Some p') => length p = length p'
  | Bfs.Return None, Bfs.Return None => True
  | _, _ => False
  end.

(** A Data Source that knows no subway route. *)
Definition no_routes_source (url : string) (hdrs : list (string * string))
    (w : unit) : option response * unit :=
  if decide (url = routes_url) then (ok [], w) else (not_found, w).

End Records.

(** ** The route line of [q3] *)

Module Cli.
Import Fetch Adjacency.

(** The exceptions of the printing code: those of the analyses, and the
    [TypeError] of [str.join] on a value that is not iterable. *)
Inductive cli_exception : Type :=
  | Raised (e : exception)
  | TypeError.

(** [' -> '.join(path)] for the value [bfs] returned. *)
Definition join_arrow (path : option (list string)) : cli_exception + string :=
  match path with
  | Some labels => inr (String.concat " -> " labels)
  | None => inl TypeError
  end.

Section WithDataSource.

Context {World : Type}.
Variable requests_get :
  string → list (string * string) → World → option response * World.

(** The argument of [print] at lines 104 and 108:
    [f"Route: {' -> '.join(compute_route_between(stop1,stop2))}"].
    [None] stands for a search cut off by its step budget. *)
Definition route_line (stop1 stop2 : string) (st : state World)
  : option ((cli_exception + string) * state World) :=
  match compute_route_between requests_get stop1 stop2 st with
  | (inl e, st') => Some (inl (Raised e), st')
  | (inr (Bfs.Return path), st') =>
      Some (match join_arrow path with
            | inl e => inl e
            | inr text => inr (String.append "Route: " text)
            end, st')
  | (inr Bfs.OutOfFuel, st') => None
  end.

End WithDataSource.

End Cli.

(** * Properties *)

(** ** The inner loop of [bfs] *)

Module BfsFacts.
Import Bfs.

Lemma scan_spec nbrs curr path visited queue :
  scan nbrs curr path visited queue =
  (visited ++ fresh nbrs visited,
   queue ++ ((λ n, (n, path ++ [curr])) <$> fresh nbrs visited)).
Proof.
  revert visited queue.
  induction nbrs as [|n nbrs IH]; intros visited queue; simpl.
  - by rewrite !app_nil_r.
  - destruct (decide (n ∈ visited)) as [Hin|Hnin]; rewrite IH; [done|].
    simpl. by rewrite <- !app_assoc.
Qed.

Lemma fresh_elem x nbrs visited :
  x ∈ fresh nbrs visited → x ∈ nbrs ∧ x ∉ visited.
Proof.
  revert visited.
  induction nbrs as [|n nbrs IH]; intros visited; simpl.
  - intros H. by apply elem_of_nil in H.
  - destruct (decide (n ∈ visited)) as [Hin|Hnin].
    + intros H. destruct (IH _ H) as [H1 H2]. split; [by right|done].
    + intros [->|H]%elem_of_cons.
      * split; [by left|done].
      * destruct (IH _ H) as [H1 H2]. split; [by right|].
        intros Hx. apply H2, elem_of_app. by left.
Qed.

Lemma fresh_NoDup nbrs visited : NoDup (fresh nbrs visited).
Proof.
  revert visited.
  induction nbrs as [|n nbrs IH]; intros visited; simpl.
  - constructor.
  - destruct (decide (n ∈ visited)); [apply IH|].
    constructor; [|apply IH].
    intros [_ H]%fresh_elem. apply H, elem_of_app. right. by left.
Qed.

Lemma fresh_complete x nbrs visited :
  x ∈ nbrs → x ∈ visited ∨ x ∈ fresh nbrs visited.
Proof.
  revert visited.
  induction nbrs as [|n nbrs IH]; intros visited; simpl.
  - intros H. by apply elem_of_nil in H.
  - intros [->|H]%elem_of_cons.
    + destruct (decide (n ∈ visited)); [by left|right; by left].
    + destruct (decide (n ∈ visited)) as [Hin|Hnin]; [by apply IH|].
      destruct (IH (visited ++ [n]) H) as [[Hv|Hn]%elem_of_app|Hf].
      * by left.
      * apply list_elem_of_singleton in Hn as ->. right; by left.
      * right; by right.
Qed.

(** ** Paths and hop counts *)

Lemma neighbors_in_universe g start u w :
  w ∈ neighbors_of g u → w ∈ universe g start.
Proof.
  unfold neighbors_of, universe. intros Hw.
  destruct (g !! u) as [l|] eqn:Hl; simpl in Hw;
    [|by apply elem_of_nil in Hw].
  right. apply list_elem_of_join. exists l. split; [done|].
  apply list_elem_of_fmap. exists (u, l). split; [done|].
  by apply elem_of_map_to_list.
Qed.

Lemma chain_snoc g p v w :
  chain g (p ++ [v]) → w ∈ neighbors_of g v → chain g ((p ++ [v]) ++ [w]).
Proof.
  induction p as [|a p IH]; simpl.
  - intros _ Hw. by split.
  - destruct p as [|b p]; simpl in *.
    + intros [Hv _] Hw. by repeat split.
    + intros [Hb Hc] Hw. split; [done|]. by apply IH.
Qed.

Lemma hops_cons g a b k v :
  b ∈ neighbors_of g a → hops g b k v → hops g a (S k) v.
Proof.
  intros Hab Hh. induction Hh as [|k u w _ IH Hw].
  - eapply hops_S; [apply hops_O|done].
  - eapply hops_S; [apply IH|done].
Qed.

Lemma path_hops g s e p : is_path g s e p → hops g s (hop_count p) e.
Proof.
  unfold is_path, hop_count. revert s.
  induction p as [|a p IH]; intros s (Hh & Hl & Hc); [done|].
  simpl in Hh. injection Hh as ->.
  destruct p as [|b p].
  - simpl in Hl. injection Hl as ->. apply hops_O.
  - destruct Hc as [Hb Hc].
    apply (hops_cons _ _ b); [done|].
    apply (IH b). by repeat split.
Qed.

Lemma hops_path g s k v :
  hops g s k v → ∃ p, is_path g s v p ∧ length p = S k.
Proof.
  induction 1 as [|k u w _ (p & (Hh & Hl & Hc) & Hlen) Hw].
  - exists [s]. by repeat split.
  - destruct (last_Some p u) as [[p' ->] _]; [done|].
    exists ((p' ++ [u]) ++ [w]). split.
    + split; [|split].
      * destruct p'; simpl in *; done.
      * by rewrite last_snoc.
      * by apply chain_snoc.
    + rewrite length_app. simpl. lia.
Qed.

Lemma connected_hops g s e : connected g s e ↔ ∃ k, hops g s k e.
Proof.
  split.
  - intros [p Hp]. eexists. by apply path_hops.
  - intros [k Hk]. destruct (hops_path _ _ _ _ Hk) as (p & Hp & _).
    by exists p.
Qed.

(** ** The loop invariant *)

Section Invariant.

Variable g : gmap string (list string).
Variables start end_ : string.

Lemma inv_init : inv g start end_ [start] [(start, [])].
Proof.
  split.
  - by left.
  - apply NoDup_singleton.
  - intros x ->%list_elem_of_singleton. by left.
  - intros v p [= -> ->]%list_elem_of_singleton. split; [by left|].
    intros x Hx. by apply elem_of_nil in Hx.
  - intros v p [= -> ->]%list_elem_of_singleton. simpl. split.
    + by repeat split.
    + apply NoDup_singleton.
  - intros v p k [= -> ->]%list_elem_of_singleton _. simpl. lia.
  - exists 0, [(start, [])], []. repeat split; [|done].
    by apply Forall_singleton.
  - intros u ->%list_elem_of_singleton. left. by left.
Qed.

(** A walk that leaves [visited] crosses its border somewhere. *)
Lemma hops_border (visited : list string) k v :
  start ∈ visited → hops g start k v → v ∉ visited →
  ∃ j u w, j < k ∧ hops g start j u ∧ u ∈ visited ∧
           w ∈ neighbors_of g u ∧ w ∉ visited.
Proof.
  intros Hs Hh. induction Hh as [|k u w Hh IH Hw]; intros Hv; [done|].
  destruct (decide (u ∈ visited)) as [Hu|Hu].
  - exists k, u, w. repeat split; [lia|done..].
  - destruct (IH Hu) as (j & u' & w' & Hj & H'). exists j, u', w'.
    split; [lia|done].
Qed.

(** The head of the queue has the shortest path of the queue. *)
Lemma levels_head (q : list (string * list string)) d q1 q2 c path v p :
  (c, path) :: q = q1 ++ q2 →
  Forall (λ e, length e.2 = d) q1 →
  Forall (λ e, length e.2 = S d) q2 →
  (v, p) ∈ (c, path) :: q → length path ≤ length p.
Proof.
  intros Heq H1 H2 Hin. rewrite Heq in Hin.
  rewrite Forall_forall in H1, H2.
  destruct q1 as [|e q1]; simpl in Heq.
  - pose proof (H2 (c, path)) as Hc. pose proof (H2 _ Hin) as Hp.
    rewrite <- Heq in Hc. simpl in *. rewrite Hc by (by left). lia.
  - injection Heq as <- Heq. pose proof (H1 (c, path)) as Hc.
    simpl in Hc. rewrite Hc by (by left).
    apply elem_of_app in Hin as [Hin|Hin].
    + pose proof (H1 _ Hin) as Hp. simpl in Hp. lia.
    + pose proof (H2 _ Hin) as Hp. simpl in Hp. lia.
Qed.

Lemma levels_step (q : list (string * list string)) c path
    (new : list string) :
  (∃ d q1 q2, (c, path) :: q = q1 ++ q2 ∧
     Forall (λ e, length e.2 = d) q1 ∧
     Forall (λ e, length e.2 = S d) q2) →
  ∃ d q1 q2, q ++ ((λ n, (n, path ++ [c])) <$> new) = q1 ++ q2 ∧
     Forall (λ e, length e.2 = d) q1 ∧
     Forall (λ e, length e.2 = S d) q2.
Proof.
  intros (d & q1 & q2 & Heq & H1 & H2).
  assert (Hnew : ∀ m, length path = m →
    Forall (λ e : string * list string, length e.2 = S m)
           ((λ n, (n, path ++ [c])) <$> new)).
  { intros m <-. apply Forall_fmap, Forall_forall. intros x _. simpl.
    rewrite length_app. simpl. lia. }
  destruct q1 as [|e q1]; simpl in Heq.
  - subst q2. apply Forall_cons in H2 as [Hc H2]. simpl in Hc.
    exists (S d), q, ((λ n, (n, path ++ [c])) <$> new).
    split; [done|]. split; [done|]. by apply Hnew.
  - injection Heq as <- ->. apply Forall_cons in H1 as [Hc H1].
    simpl in Hc.
    exists d, q1, (q2 ++ ((λ n, (n, path ++ [c])) <$> new)).
    split; [by rewrite app_assoc|]. split; [done|].
    apply Forall_app. split; [done|]. by apply Hnew.
Qed.

(** One iteration of the [while] loop that does not return keeps the
    invariant. *)
Lemma inv_step visited c path q :
  inv g start end_ visited ((c, path) :: q) → c ≠ end_ →
  inv g start end_
    (visited ++ fresh (neighbors_of g c) visited)
    (q ++ ((λ n, (n, path ++ [c])) <$> fresh (neighbors_of g c) visited)).
Proof.
  intros [Hs Hnd Hu Hin Hp Hsh Hlv Hcl] Hne.
  set (new := fresh (neighbors_of g c) visited).
  assert (Hnew : ∀ x, x ∈ new → x ∈ neighbors_of g c ∧ x ∉ visited)
    by (intros x; apply fresh_elem).
  destruct (Hin c path) as [Hcv Hpv]; [by left|].
  destruct (Hp c path) as [(Hhd & _ & Hch) Hndp]; [by left|].
  assert (Hold : ∀ v p, (v, p) ∈ q → (v, p) ∈ (c, path) :: q)
    by (intros; by right).
  assert (Hq' : ∀ v p,
    (v, p) ∈ q ++ ((λ n, (n, path ++ [c])) <$> new) →
    (v, p) ∈ q ∨ (v ∈ new ∧ p = path ++ [c])).
  { intros v p [H|H]%elem_of_app; [by left|right].
    apply list_elem_of_fmap in H as (n & [= -> ->] & Hn). done. }
  split.
  - apply elem_of_app. by left.
  - apply NoDup_app. repeat split; [done| |apply fresh_NoDup].
    intros x Hx Hx'. by apply Hnew in Hx' as [_ ?].
  - intros x [Hx|Hx]%elem_of_app; [by apply Hu|].
    apply Hnew in Hx as [Hx _]. by eapply neighbors_in_universe.
  - intros v p [H|[Hv ->]]%Hq'.
    + destruct (Hin v p (Hold _ _ H)) as [H1 H2].
      split; [apply elem_of_app; by left|].
      intros x Hx. apply elem_of_app. left. by apply H2.
    + split; [apply elem_of_app; by right|].
      intros x [Hx|Hx]%elem_of_app; apply elem_of_app; left.
      * by apply Hpv.
      * by apply list_elem_of_singleton in Hx as ->.
  - intros v p [H|[Hv ->]]%Hq'; [by apply Hp, Hold|].
    apply Hnew in Hv as [Hv Hvn]. split.
    + split; [|split].
      * destruct path; simpl in *; done.
      * by rewrite last_snoc.
      * by apply chain_snoc.
    + apply NoDup_app. split; [done|]. split; [|apply NoDup_singleton].
      intros x Hx ->%list_elem_of_singleton. apply Hvn.
      apply elem_of_app in Hx as [Hx|Hx]; [by apply Hpv|].
      by apply list_elem_of_singleton in Hx as ->.
  - intros v p k [H|[Hv ->]]%Hq' Hk; [by eapply Hsh; [apply Hold|]|].
    apply Hnew in Hv as [_ Hvn].
    destruct (hops_border visited k v Hs Hk Hvn)
      as (j & u & w & Hj & Hju & Huv & Hw & Hwn).
    rewrite length_app. simpl.
    destruct (Hcl u Huv) as [Huq|[_ Hclosed]]; [|by destruct Hwn; auto].
    apply list_elem_of_fmap in Huq as ([u' pu] & -> & Huq). simpl in *.
    pose proof (Hsh _ _ _ Huq Hju) as Hle.
    destruct Hlv as (d & q1 & q2 & Heq & H1 & H2).
    pose proof (levels_head _ _ _ _ _ _ _ _ Heq H1 H2 Huq). lia.
  - by apply levels_step.
  - intros u [Huv|Hun]%elem_of_app.
    + destruct (Hcl u Huv) as [Huq|[Hue Hclosed]].
      * apply elem_of_cons in Huq as [->|Huq].
        -- right. split; [done|]. intros w Hw. apply elem_of_app.
           destruct (fresh_complete w _ visited Hw); auto.
        -- left. rewrite fmap_app. apply elem_of_app. by left.
      * right. split; [done|]. intros w Hw. apply elem_of_app. left.
        by apply Hclosed.
    + left. rewrite fmap_app. apply elem_of_app. right.
      apply list_elem_of_fmap. exists (u, path ++ [c]). split; [done|].
      apply list_elem_of_fmap. by exists u.
Qed.

(** When the queue is empty every label reachable from [start] has been
    visited and found different from [end_]. *)
Lemma inv_exhausted visited k :
  inv g start end_ visited [] → ¬ hops g start k end_.
Proof.
  intros [Hs _ _ _ _ _ _ Hcl] Hk.
  assert (Hall : ∀ k v, hops g start k v → v ∈ visited).
  { clear k Hk. intros k v. induction 1 as [|k u w _ IH Hw]; [done|].
    destruct (Hcl u IH) as [Hq|[_ Hc]]; [|by apply Hc].
    by apply elem_of_nil in Hq. }
  destruct (Hcl end_ (Hall _ _ Hk)) as [Hq|[Hne _]]; [|done].
  by apply elem_of_nil in Hq.
Qed.

(** What [bfs_loop] returns from a state that satisfies the invariant,
    given a budget that covers the remaining work. *)
Lemma bfs_loop_correct fuel visited queue :
  inv g start end_ visited queue →
  length queue + (length (universe g start) - length visited) < fuel →
  match bfs_loop fuel g end_ visited queue with
  | OutOfFuel => False
  | Return None => ∀ k, ¬ hops g start k end_
  | Return (Some p) =>
      is_path g start end_ p ∧ NoDup p ∧
      ∀ k, hops g start k end_ → hop_count p ≤ k
  end.
Proof.
  revert visited queue.
  induction fuel as [|fuel IH]; intros visited queue Hinv Hfuel; [lia|].
  simpl. destruct queue as [|[c path] q].
  - intros k. by eapply inv_exhausted.
  - destruct (decide (c = end_)) as [->|Hne].
    + destruct (inv_path _ _ _ _ _ Hinv end_ path) as [Hp Hnd]; [by left|].
      split; [done|]. split; [done|]. intros k Hk.
      unfold hop_count. rewrite length_app. simpl.
      pose proof (inv_shortest _ _ _ _ _ Hinv end_ path k) as Hle.
      rewrite Nat.add_1_r. simpl. apply Hle; [by left|done].
    + rewrite scan_spec. apply IH; [by apply inv_step|].
      pose proof (inv_step _ _ _ _ Hinv Hne) as Hinv'.
      pose proof (submseteq_length _ _
        (NoDup_submseteq _ _ (inv_nodup _ _ _ _ _ Hinv')
           (inv_universe _ _ _ _ _ Hinv'))) as Hlen.
      rewrite length_app in Hlen. rewrite !length_app, length_fmap.
      change (length ((c, path) :: q)) with (S (length q)) in Hfuel. lia.
Qed.

End Invariant.

(** ** [bfs] *)

Lemma present_spec g x :
  present g x ↔ is_Some (g !! x) ∨ ∃ k l, g !! k = Some l ∧ x ∈ l.
Proof.
  unfold present, labels. rewrite elem_of_app. split.
  - intros [H|H].
    + left. apply list_elem_of_fmap in H as ([k l] & -> & H).
      apply elem_of_map_to_list in H. by exists l.
    + right. apply list_elem_of_join in H as (l & Hx & H).
      apply list_elem_of_fmap in H as ([k l'] & -> & H).
      apply elem_of_map_to_list in H. by exists k, l'.
  - intros [[l H]|(k & l & H & Hx)].
    + left. apply list_elem_of_fmap. exists (x, l). split; [done|].
      by apply elem_of_map_to_list.
    + right. apply list_elem_of_join. exists l. split; [done|].
      apply list_elem_of_fmap. exists (k, l). split; [done|].
      by apply elem_of_map_to_list.
Qed.

Lemma neighbors_present g u w :
  w ∈ neighbors_of g u → present g u ∧ present g w.
Proof.
  unfold neighbors_of. intros Hw.
  destruct (g !! u) as [l|] eqn:Hl; simpl in Hw;
    [|by apply elem_of_nil in Hw].
  split; apply present_spec; [left; by exists l|right; by exists u, l].
Qed.

Lemma chain_lookup g p :
  chain g p ↔
  ∀ i a b, p !! i = Some a → p !! S i = Some b → b ∈ neighbors_of g a.
Proof.
  induction p as [|x p IH]; simpl; [done|].
  destruct p as [|y p].
  - split; [|done]. intros _ i a b _ H. by destruct i.
  - rewrite IH. split.
    + intros [Hy Hc] [|i] a b Ha Hb; simpl in *.
      * by injection Ha as <-; injection Hb as <-.
      * by eapply Hc.
    + intros H. split; [by apply (H 0)|].
      intros i a b Ha Hb. by apply (H (S i)).
Qed.

(** The result of the loop does not depend on the budget once it
    returns. *)
Lemma bfs_loop_fuel_mono g end_ fuel fuel' visited queue v :
  bfs_loop fuel g end_ visited queue = Return v → fuel ≤ fuel' →
  bfs_loop fuel' g end_ visited queue = Return v.
Proof.
  revert fuel' visited queue.
  induction fuel as [|fuel IH]; intros fuel' visited queue; [done|].
  intros H Hle. destruct fuel' as [|fuel']; [lia|]. simpl in *.
  destruct queue as [|[c path] q]; [done|].
  destruct (decide (c = end_)); [done|].
  destruct (scan _ _ _ _ _) as [visited' queue'].
  apply IH; [done|lia].
Qed.

(** [bfs] always returns, and what it returns is right. *)
Lemma bfs_correct g start end_ :
  match bfs g start end_ with
  | OutOfFuel => False
  | Return None => ∀ k, ¬ hops g start k end_
  | Return (Some p) =>
      is_path g start end_ p ∧ NoDup p ∧
      ∀ k, hops g start k end_ → hop_count p ≤ k
  end.
Proof.
  apply bfs_loop_correct; [apply inv_init|].
  unfold bfs_fuel, universe. simpl. lia.
Qed.

Lemma bfs_returns g start end_ : ∃ v, bfs g start end_ = Return v.
Proof.
  pose proof (bfs_correct g start end_) as H.
  destruct (bfs g start end_) as [|v]; [done|]. by exists v.
Qed.

(** C1.  When [end_] is reachable from [start], [bfs] returns a path from
    [start] to [end_] whose hop count is the graph distance: that many
    edges lead from [start] to [end_], and no walk and no path between
    them has fewer. *)
Theorem bfs_minimum_hop_count g start end_ :
  connected g start end_ →
  ∃ p, bfs g start end_ = Return (Some p) ∧
       is_path g start end_ p ∧
       hops g start (hop_count p) end_ ∧
       (∀ k, hops g start k end_ → hop_count p ≤ k) ∧
       (∀ q, is_path g start end_ q → hop_count p ≤ hop_count q).
Proof.
  intros [k Hk]%connected_hops.
  pose proof (bfs_correct g start end_) as H.
  destruct (bfs g start end_) as [|[p|]]; [done| |by destruct (H k)].
  destruct H as (Hp & _ & Hmin). exists p.
  split; [done|]. split; [done|]. split; [by apply path_hops|].
  split; [done|]. intros q Hq. by apply Hmin, path_hops.
Qed.

Lemma bfs_minimum_hop_count_witness :
  ∃ p, bfs example_network "Ashmont" "Arlington" = Return (Some p) ∧
       is_path example_network "Ashmont" "Arlington" p ∧
       hops example_network "Ashmont" (hop_count p) "Arlington" ∧
       (∀ k, hops example_network "Ashmont" k "Arlington" → hop_count p ≤ k) ∧
       (∀ q, is_path example_network "Ashmont" "Arlington" q →
             hop_count p ≤ hop_count q).
Proof.
  apply (bfs_minimum_hop_count example_network "Ashmont" "Arlington").
  exists ["Ashmont"; "Red"; "Arlington"].
  repeat split; vm_compute; repeat constructor.
Defined.

(** C8.  With [start] and [end_] the same label [x], [bfs] returns the
    one-element path [[x]]: the seed is dequeued and matches at once.
    This holds for every label, in particular for those present in the
    map. *)
Theorem bfs_degenerate_path g x : bfs g x x = Return (Some [x]).
Proof.
  unfold bfs, bfs_fuel. simpl. by rewrite decide_True.
Qed.

(** C10.  A list returned by [bfs] is a path of the map it was given: it
    starts at [start], ends at [end_], each element is a neighbour of the
    one before it, and no element occurs twice. *)
Theorem bfs_path_genuine g start end_ p :
  bfs g start end_ = Return (Some p) →
  head p = Some start ∧ last p = Some end_ ∧
  (∀ i a b, p !! i = Some a → p !! S i = Some b → b ∈ neighbors_of g a) ∧
  NoDup p.
Proof.
  intros Hb. pose proof (bfs_correct g start end_) as H. rewrite Hb in H.
  destruct H as ((Hh & Hl & Hc) & Hnd & _).
  split; [done|]. split; [done|]. split; [by apply chain_lookup|done].
Qed.

Lemma bfs_path_genuine_witness :
  head ["Ashmont"; "Red"; "Park"; "Green"] = Some "Ashmont" ∧
  last ["Ashmont"; "Red"; "Park"; "Green"] = Some "Green" ∧
  (∀ i a b, ["Ashmont"; "Red"; "Park"; "Green"] !! i = Some a →
            ["Ashmont"; "Red"; "Park"; "Green"] !! S i = Some b →
            b ∈ neighbors_of example_network a) ∧
  NoDup ["Ashmont"; "Red"; "Park"; "Green"].
Proof.
  apply (bfs_path_genuine example_network "Ashmont" "Green").
  vm_compute. reflexivity.
Defined.

Lemma absent_not_connected g start end_ :
  start ≠ end_ → ¬ present g start ∨ ¬ present g end_ →
  ¬ connected g start end_.
Proof.
  intros Hne [Hs|He] Hc.
  - destruct Hc as (p & Hh & Hl & Hc).
    destruct p as [|a [|b p]]; simpl in *; [done| |].
    + congruence.
    + injection Hh as ->. destruct Hc as [Hb _].
      by apply neighbors_present in Hb as [? _].
  - apply connected_hops in Hc as [k Hk].
    destruct Hk as [|k u w _ Hw]; [done|].
    by apply neighbors_present in Hw as [_ ?].
Qed.

(** C2, as stated, fails when [start] and [end_] are the same absent
    label: the seed is dequeued and matches before any lookup. *)
Lemma bfs_absent_same_label_counterexample :
  ¬ present example_network "Nowhere" ∧
  bfs example_network "Nowhere" "Nowhere" = Return (Some ["Nowhere"]) ∧
  bfs example_network "Nowhere" "Nowhere" ≠ Return None.
Proof.
  split; [|split].
  - unfold present. apply (bool_decide_unpack _). vm_compute. exact I.
  - vm_compute. reflexivity.
  - vm_compute. discriminate.
Qed.

(** C2, amended.  [bfs] returns [None] when [start] and [end_] are
    different labels of which one is absent from the map, and whenever no
    path leads from [start] to [end_]. *)
Theorem bfs_not_found g start end_ :
  (start ≠ end_ ∧ (¬ present g start ∨ ¬ present g end_)) ∨
  ¬ connected g start end_ →
  bfs g start end_ = Return None.
Proof.
  intros H.
  assert (Hnc : ¬ connected g start end_).
  { destruct H as [[Hne Habs]|H]; [by apply absent_not_connected|done]. }
  pose proof (bfs_correct g start end_) as Hb.
  destruct (bfs g start end_) as [|[p|]]; [done| |done].
  destruct Hb as (Hp & _). destruct Hnc. by exists p.
Qed.

Lemma bfs_not_found_witness :
  bfs example_network "Ashmont" "Nowhere" = Return None.
Proof.
  apply (bfs_not_found example_network "Ashmont" "Nowhere").
  left. split; [discriminate|]. right.
  unfold present. apply (bool_decide_unpack _). vm_compute. exact I.
Defined.

End BfsFacts.

(** ** Route Statistics *)

Module StatsFacts.
Import Fetch Stats.

Lemma remove_dups_NoDup (l : list string) : NoDup l → remove_dups l = l.
Proof.
  induction 1 as [|x l Hx _ IH]; simpl; [done|].
  destruct (decide_rel _ x l); [done|]. by rewrite IH.
Qed.

Lemma num_distinct_NoDup (l : list string) :
  NoDup l → num_distinct l = length l.
Proof. intros H. unfold num_distinct. by rewrite remove_dups_NoDup. Qed.

Section Extremum.

Context {A : Type}.
Variable key : A → nat.

Lemma min_from_elem best l : min_from key best l ∈ best :: l.
Proof.
  revert best. induction l as [|x l IH]; intros best; simpl; [by left|].
  specialize (IH (if key x <? key best then x else best)).
  apply elem_of_cons in IH as [->|IH]; [|by do 2 right].
  destruct (key x <? key best); [right|]; by left.
Qed.

Lemma min_from_le best l x :
  x ∈ best :: l → key (min_from key best l) ≤ key x.
Proof.
  revert best x. induction l as [|y l IH]; intros best x; simpl.
  - by intros ->%list_elem_of_singleton.
  - intros Hx.
    pose proof (IH (if key y <? key best then y else best)) as IH'.
    destruct (Nat.ltb_spec (key y) (key best)) as [Hlt|Hge].
    + apply elem_of_cons in Hx as [->|[->|Hx]%elem_of_cons].
      * etrans; [apply (IH' y); by left|lia].
      * apply IH'. by left.
      * apply IH'. by right.
    + apply elem_of_cons in Hx as [->|[->|Hx]%elem_of_cons].
      * apply IH'. by left.
      * etrans; [apply (IH' best); by left|lia].
      * apply IH'. by right.
Qed.

Lemma max_from_elem best l : max_from key best l ∈ best :: l.
Proof.
  revert best. induction l as [|x l IH]; intros best; simpl; [by left|].
  specialize (IH (if key best <? key x then x else best)).
  apply elem_of_cons in IH as [->|IH]; [|by do 2 right].
  destruct (key best <? key x); [right|]; by left.
Qed.

Lemma max_from_ge best l x :
  x ∈ best :: l → key x ≤ key (max_from key best l).
Proof.
  revert best x. induction l as [|y l IH]; intros best x; simpl.
  - by intros ->%list_elem_of_singleton.
  - intros Hx.
    pose proof (IH (if key best <? key y then y else best)) as IH'.
    destruct (Nat.ltb_spec (key best) (key y)) as [Hlt|Hge].
    + apply elem_of_cons in Hx as [->|[->|Hx]%elem_of_cons].
      * etrans; [|apply (IH' y); by left]. lia.
      * apply IH'. by left.
      * apply IH'. by right.
    + apply elem_of_cons in Hx as [->|[->|Hx]%elem_of_cons].
      * apply IH'. by left.
      * etrans; [|apply (IH' best); by left]. lia.
      * apply IH'. by right.
Qed.

End Extremum.

(** What the two statistics return on a dictionary with at least one
    route. *)
Lemma route_with_least_stops_spec d :
  d ≠ [] →
  ∃ route,
    route_with_least_stops d = inr (route, num_stops d route) ∧
    route ∈ keys d ∧
    ∀ r, r ∈ keys d → num_stops d route ≤ num_stops d r.
Proof.
  intros Hd. unfold route_with_least_stops, py_min, keys.
  destruct d as [|[k v] d]; [done|]. simpl.
  eexists. split; [done|]. split.
  - apply min_from_elem.
  - intros r Hr. by apply min_from_le.
Qed.

Lemma route_with_most_stops_spec d :
  d ≠ [] →
  ∃ route,
    route_with_most_stops d = inr (route, num_stops d route) ∧
    route ∈ keys d ∧
    ∀ r, r ∈ keys d → num_stops d r ≤ num_stops d route.
Proof.
  intros Hd. unfold route_with_most_stops, py_max, keys.
  destruct d as [|[k v] d]; [done|]. simpl.
  eexists. split; [done|]. split.
  - apply max_from_elem.
  - intros r Hr. by apply max_from_ge.
Qed.

Lemma dict_get_elem d k v : dict_get d k = Some v → (k, v) ∈ d.
Proof.
  induction d as [|[k' v'] d IH]; simpl; [done|].
  destruct (decide (k' = k)) as [->|]; [intros [= ->]; by left|].
  intros H. right. by apply IH.
Qed.

Lemma dict_get_key d k : k ∈ keys d → is_Some (dict_get d k).
Proof.
  unfold keys. induction d as [|[k' v'] d IH]; simpl.
  - intros H. by apply elem_of_nil in H.
  - destruct (decide (k' = k)) as [->|Hne]; [by eexists|].
    intros [?|H]%elem_of_cons; [congruence|by apply IH].
Qed.

(** When no stop list repeats a name, the length of a route's stop list is
    its number of distinct stops. *)
Lemma num_stops_distinct d r :
  Forall (λ item, NoDup item.2) d → num_stops d r = distinct_stops d r.
Proof.
  intros Hd. unfold num_stops, distinct_stops.
  destruct (dict_get d r) as [v|] eqn:Hv; simpl; [|done].
  symmetry. apply num_distinct_NoDup.
  rewrite Forall_forall in Hd. by apply (Hd (r, v)), dict_get_elem.
Qed.

(** C9.  On the empty dictionary both statistics raise [ValueError]; on
    every other dictionary both return a value. *)
Theorem statistics_raise_iff_empty d :
  (d = [] ∧
   route_with_least_stops d = inl ValueError ∧
   route_with_most_stops d = inl ValueError) ∨
  (d ≠ [] ∧
   ∃ least most,
     route_with_least_stops d = inr least ∧
     route_with_most_stops d = inr most).
Proof.
  destruct d as [|item d]; [by left|]. right. split; [done|].
  destruct (route_with_least_stops_spec (item :: d)) as (r1 & H1 & _);
    [done|].
  destruct (route_with_most_stops_spec (item :: d)) as (r2 & H2 & _);
    [done|].
  by eexists _, _.
Qed.

(** C4, as stated, fails when a stop list repeats a name: the statistics
    compare list lengths.  With the records of [platform_source], Green is
    returned as the route with the fewest stops although Red has a single
    distinct stop, and Red is returned as the route with the most stops,
    with count 3. *)
Lemma statistics_distinct_counterexample :
  (get_route_to_stops platform_source (init tt)).1 = inr repeated_stops ∧
  route_with_least_stops repeated_stops = inr ("Green", 2) ∧
  ¬ fewest_distinct repeated_stops "Green" 2 ∧
  route_with_most_stops repeated_stops = inr ("Red", 3) ∧
  ¬ most_distinct repeated_stops "Red" 3.
Proof.
  split; [by vm_compute|]. split; [done|]. split; [|split; [done|]].
  - intros (_ & _ & H). specialize (H "Red").
    vm_compute in H. assert (2 ≤ 1) by (apply H; by left). lia.
  - intros (_ & H & _). vm_compute in H. discriminate.
Qed.

(** C4, amended.  On a dictionary with at least one route,
    [route_with_least_stops] returns a route whose stop list is the
    shortest, with the length of that list, and [route_with_most_stops]
    a route whose stop list is the longest, with its length; when no stop
    list repeats a name these lengths are the numbers of distinct stops.
    On the dictionary Red: a, b, c; Blue: a, b they return (Blue, 2) and
    (Red, 3). *)
Theorem route_statistics_correct :
  (∀ d, d ≠ [] →
     ∃ least most,
       route_with_least_stops d = inr (least, num_stops d least) ∧
       least ∈ keys d ∧
       (∀ r, r ∈ keys d → num_stops d least ≤ num_stops d r) ∧
       route_with_most_stops d = inr (most, num_stops d most) ∧
       most ∈ keys d ∧
       (∀ r, r ∈ keys d → num_stops d r ≤ num_stops d most) ∧
       (Forall (λ item, NoDup item.2) d →
          fewest_distinct d least (num_stops d least) ∧
          most_distinct d most (num_stops d most))) ∧
  (∀ a b c,
     route_with_least_stops [("Red", [a; b; c]); ("Blue", [a; b])]
       = inr ("Blue", 2) ∧
     route_with_most_stops [("Red", [a; b; c]); ("Blue", [a; b])]
       = inr ("Red", 3)).
Proof.
  split; [|done].
  intros d Hd.
  destruct (route_with_least_stops_spec d Hd) as (r1 & H1 & Hk1 & Hmin).
  destruct (route_with_most_stops_spec d Hd) as (r2 & H2 & Hk2 & Hmax).
  exists r1, r2. repeat split; try done.
  - by apply num_stops_distinct.
  - intros r Hr. rewrite <- (num_stops_distinct d r) by done. by apply Hmin.
  - by apply num_stops_distinct.
  - intros r Hr. rewrite <- (num_stops_distinct d r) by done. by apply Hmax.
Qed.

Lemma route_statistics_correct_witness :
  ∃ least most,
    route_with_least_stops repeated_stops
      = inr (least, num_stops repeated_stops least) ∧
    least ∈ keys repeated_stops ∧
    (∀ r, r ∈ keys repeated_stops →
          num_stops repeated_stops least ≤ num_stops repeated_stops r) ∧
    route_with_most_stops repeated_stops
      = inr (most, num_stops repeated_stops most) ∧
    most ∈ keys repeated_stops ∧
    (∀ r, r ∈ keys repeated_stops →
          num_stops repeated_stops r ≤ num_stops repeated_stops most) ∧
    (Forall (λ item, NoDup item.2) repeated_stops →
       fewest_distinct repeated_stops least (num_stops repeated_stops least) ∧
       most_distinct repeated_stops most (num_stops repeated_stops most)).
Proof.
  apply (proj1 route_statistics_correct repeated_stops). discriminate.
Defined.

(** C3, as stated, fails when a route list repeats a name: with the
    records of [platform_source], Ashmont is reported although a single
    route serves it. *)
Lemma transfer_stops_distinct_counterexample :
  (get_stop_to_routes platform_source (init tt)).1 = inr repeated_routes ∧
  transfer_stops repeated_routes = [("Ashmont", ["Red"; "Red"; "Red"])] ∧
  num_distinct ["Red"; "Red"; "Red"] = 1 ∧
  ¬ 2 ≤ num_distinct ["Red"; "Red"; "Red"].
Proof.
  split; [by vm_compute|]. split; [done|]. split; [done|].
  vm_compute. lia.
Qed.

(** C3, amended.  A stop is reported exactly when its route list has two
    or more entries, paired with that list and in the order of the
    dictionary; when the route list repeats no name this is the case
    exactly when two or more distinct routes serve the stop.  For Park:
    Red, Green; Wood: Red the report is Park with Red, Green. *)
Theorem transfer_stops_correct :
  (∀ d stop routes,
     (stop, routes) ∈ transfer_stops d ↔
     (stop, routes) ∈ d ∧ 2 ≤ length routes) ∧
  (∀ d stop routes, NoDup routes →
     ((stop, routes) ∈ transfer_stops d ↔
      (stop, routes) ∈ d ∧ 2 ≤ num_distinct routes)) ∧
  (∀ d, sublist (transfer_stops d) d) ∧
  transfer_stops [("Park", ["Red"; "Green"]); ("Wood", ["Red"])]
    = [("Park", ["Red"; "Green"])].
Proof.
  assert (H : ∀ d stop routes,
    (stop, routes) ∈ transfer_stops d ↔
    (stop, routes) ∈ d ∧ 2 ≤ length routes).
  { intros d stop routes. unfold transfer_stops.
    rewrite list_elem_of_filter. simpl. split; intros [? ?]; split; done. }
  split; [done|]. split; [|split].
  - intros d stop routes Hnd. rewrite H. by rewrite num_distinct_NoDup.
  - intros d. apply sublist_filter.
  - done.
Qed.

Lemma transfer_stops_correct_witness :
  ("Park", ["Red"; "Green"])
    ∈ transfer_stops [("Park", ["Red"; "Green"]); ("Wood", ["Red"])] ↔
  ("Park", ["Red"; "Green"]) ∈ [("Park", ["Red"; "Green"]); ("Wood", ["Red"])] ∧
  2 ≤ num_distinct ["Red"; "Green"].
Proof.
  apply (proj1 (proj2 transfer_stops_correct)).
  apply (bool_decide_unpack _). vm_compute. exact I.
Defined.

End StatsFacts.

(** ** The Fetch Cache *)

Module FetchFacts.
Import Fetch.

Section WithDataSource.

Context {World : Type}.
Variable requests_get :
  string → list (string * string) → World → option response * World.

Abbreviation get_cached := (get_cached requests_get).
Abbreviation session := (session requests_get).

Lemma get_cached_hit st url resp :
  cache st !! url = Some resp → get_cached url st = (inr resp, st).
Proof. intros H. unfold Fetch.get_cached. by rewrite H. Qed.

(** The three ways a call can end. *)
Lemma get_cached_cases st url :
  (∃ resp, cache st !! url = Some resp ∧
           get_cached url st = (inr resp, st)) ∨
  (cache st !! url = None ∧
   ∃ e w',
     get_cached url st =
       (inl e, {| cache := cache st; world := w';
                  calls := calls st ++ [url] |}) ∧
     (e = ConnectionError ∨
      ∃ status, e = HTTPError status ∧ (400 ≤ status < 600)%Z)) ∨
  (cache st !! url = None ∧
   ∃ resp w',
     get_cached url st =
       (inr resp, {| cache := <[url := resp]> (cache st); world := w';
                     calls := calls st ++ [url] |})).
Proof.
  unfold Fetch.get_cached.
  destruct (cache st !! url) as [resp|] eqn:Hc; [left; by exists resp|].
  right.
  destruct (requests_get url headers (world st)) as [[resp|] w'].
  - unfold raise_for_status.
    destruct (decide (400 ≤ status_code resp < 600)%Z) as [Hs|Hs].
    + left. split; [done|]. eexists _, w'. split; [done|].
      right. by eexists.
    + right. split; [done|]. by exists resp, w'.
  - left. split; [done|]. eexists _, w'. split; [done|]. by left.
Qed.

Lemma get_cached_stored st url resp st' :
  get_cached url st = (inr resp, st') → cache st' !! url = Some resp.
Proof.
  destruct (get_cached_cases st url)
    as [(r & Hc & ->)|[(_ & e & w' & -> & _)|(_ & r & w' & ->)]];
    intros [= <- <-]; [done|]. simpl. apply lookup_insert_eq.
Qed.

Lemma get_cached_cache_le st url r st' :
  get_cached url st = (r, st') → cache_le st st'.
Proof.
  destruct (get_cached_cases st url)
    as [(r' & Hc & ->)|[(_ & e & w' & -> & _)|(Hc & r' & w' & ->)]];
    intros [= <- <-]; intros u resp Hu; simpl; [done..|].
  rewrite lookup_insert_ne; [done|]. congruence.
Qed.

Lemma cache_le_refl (st : state World) : cache_le st st.
Proof. by intros u resp. Qed.

Lemma cache_le_trans (st1 st2 st3 : state World) :
  cache_le st1 st2 → cache_le st2 st3 → cache_le st1 st3.
Proof. intros H1 H2 u resp Hu. by apply H2, H1. Qed.

Lemma session_cache_le urls st : cache_le st (session urls st).2.
Proof.
  revert st. induction urls as [|url urls IH]; intros st; simpl.
  - apply cache_le_refl.
  - unfold bind.
    destruct (get_cached url st) as [[e|resp] st1] eqn:H1; simpl.
    + by eapply get_cached_cache_le.
    + eapply cache_le_trans; [by eapply get_cached_cache_le|].
      specialize (IH st1).
      by destruct (Fetch.session requests_get urls st1) as [[e|resps] st2].
Qed.

Lemma get_cached_consistent st url resp st' :
  consistent st → get_cached url st = (inr resp, st') → consistent st'.
Proof.
  intros [Hnd Hin].
  destruct (get_cached_cases st url)
    as [(r & Hc & ->)|[(_ & e & w' & -> & _)|(Hc & r & w' & ->)]];
    intros [= <- <-]; [done|]. split; simpl.
  - apply NoDup_app. split; [done|]. split; [|apply NoDup_singleton].
    intros x Hx ->%list_elem_of_singleton.
    destruct (Hin _ Hx) as [? ?]. congruence.
  - intros u [Hu|Hu]%elem_of_app;
      [|apply list_elem_of_singleton in Hu as ->].
    + destruct (decide (url = u)) as [->|Hne].
      * rewrite lookup_insert_eq. by eexists.
      * rewrite lookup_insert_ne by done. by apply Hin.
    + rewrite lookup_insert_eq. by eexists.
Qed.

Lemma get_cached_NoDup st url r st' :
  consistent st → get_cached url st = (r, st') → NoDup (calls st').
Proof.
  intros [Hnd Hin].
  destruct (get_cached_cases st url)
    as [(r' & Hc & ->)|[(Hc & e & w' & -> & _)|(Hc & r' & w' & ->)]];
    intros [= <- <-]; [done|simpl..].
  all: apply NoDup_app; split; [done|]; split; [|apply NoDup_singleton].
  all: intros x Hx ->%list_elem_of_singleton.
  all: destruct (Hin _ Hx) as [? ?]; congruence.
Qed.

Lemma session_NoDup urls st :
  consistent st → NoDup (calls (session urls st).2).
Proof.
  revert st. induction urls as [|url urls IH]; intros st Hst; simpl.
  - apply Hst.
  - unfold bind.
    destruct (get_cached url st) as [[e|resp] st1] eqn:H1; simpl.
    + by eapply get_cached_NoDup.
    + pose proof (IH st1 (get_cached_consistent _ _ _ _ Hst H1)) as H.
      by destruct (Fetch.session requests_get urls st1) as [[e|resps] st2].
Qed.



Lemma get_cached_miss_success st url resp w' :
  cache st !! url = None →
  requests_get url headers (world st) = (Some resp, w') →
  ¬ (400 ≤ status_code resp < 600)%Z →
  get_cached url st =
  (inr resp,
   {| cache := <[url := resp]> (cache st); world := w';
      calls := calls st ++ [url] |}).
Proof.
  intros Hc Hr Hs. unfold Fetch.get_cached. rewrite Hc, Hr.
  unfold raise_for_status. by rewrite decide_False.
Qed.

(** Every call either finds the URL cached and changes nothing, or invokes
    [requests.get] once, on the state of the remote side it found. *)
Lemma get_cached_contact st url :
  (is_Some (cache st !! url) ∧ (get_cached url st).2 = st) ∨
  (cache st !! url = None ∧
   world (get_cached url st).2 = (requests_get url headers (world st)).2 ∧
   calls (get_cached url st).2 = calls st ++ [url]).
Proof.
  unfold Fetch.get_cached.
  destruct (cache st !! url) as [resp|] eqn:Hc; [left; by split|].
  right. split; [done|].
  destruct (requests_get url headers (world st)) as [[resp|] w']; simpl;
    [|done].
  by destruct (raise_for_status resp).
Qed.

(** C5.  A call for a cached URL returns the stored response and leaves
    the whole state, the log of contacted URLs included, as it was.  A
    call for an uncached URL to which [requests.get] answers with a
    response that passes [raise_for_status] returns that response, stores
    it and has invoked [requests.get] once; the same call made again
    returns the response from the cache and invokes nothing, so that the
    two calls together invoke [requests.get] exactly once.  A call that
    returns a response has stored it, and every later call for the same
    URL returns it from the cache; and over a process lifetime no URL is
    contacted twice. *)
Theorem get_cached_at_most_once :
  (∀ st url resp,
     cache st !! url = Some resp → get_cached url st = (inr resp, st)) ∧
  (∀ st url resp w',
     cache st !! url = None →
     requests_get url headers (world st) = (Some resp, w') →
     ¬ (400 ≤ status_code resp < 600)%Z →
     get_cached url st =
       (inr resp,
        {| cache := <[url := resp]> (cache st); world := w';
           calls := calls st ++ [url] |}) ∧
     get_cached url
       {| cache := <[url := resp]> (cache st); world := w';
          calls := calls st ++ [url] |} =
       (inr resp,
        {| cache := <[url := resp]> (cache st); world := w';
           calls := calls st ++ [url] |})) ∧
  (∀ st url,
     (is_Some (cache st !! url) ∧ (get_cached url st).2 = st) ∨
     (cache st !! url = None ∧
      world (get_cached url st).2
        = (requests_get url headers (world st)).2 ∧
      calls (get_cached url st).2 = calls st ++ [url])) ∧
  (∀ st url resp st' urls,
     get_cached url st = (inr resp, st') →
     cache st' !! url = Some resp ∧
     get_cached url (session urls st').2
       = (inr resp, (session urls st').2)) ∧
  (∀ st url resp st',
     cache st !! url = None →
     get_cached url st = (inr resp, st') →
     calls st' = calls st ++ [url] ∧
     get_cached url st' = (inr resp, st')) ∧
  (∀ w urls, NoDup (calls (session urls (init w)).2)).
Proof.
  split; [apply get_cached_hit|]. split; [|split; [|split; [|split]]].
  - intros st url resp w' Hc Hr Hs.
    split; [by apply get_cached_miss_success|].
    apply get_cached_hit. simpl. apply lookup_insert_eq.
  - apply get_cached_contact.
  - intros st url resp st' urls H.
    pose proof (get_cached_stored _ _ _ _ H) as Hs. split; [done|].
    by apply get_cached_hit, session_cache_le.
  - intros st url resp st' Hc H.
    pose proof (get_cached_stored _ _ _ _ H) as Hs.
    split; [|by apply get_cached_hit].
    destruct (get_cached_cases st url)
      as [(r & Hc' & _)|[(_ & e & w' & He & _)|(_ & r & w' & Hr)]].
    + congruence.
    + rewrite He in H. discriminate.
    + rewrite Hr in H. by injection H as <- <-.
  - intros w urls. apply session_NoDup. split; [constructor|].
    intros url Hu. by apply elem_of_nil in Hu.
Qed.


End WithDataSource.


Lemma get_cached_at_most_once_witness :
  get_cached scenario_source routes_url (init tt) =
    (inr {| status_code := 200;
            json_data := Some [route "Red" "Red"; route "Green" "Green"] |},
     {| cache :=
          <[routes_url :=
              {| status_code := 200;
                 json_data :=
                   Some [route "Red" "Red"; route "Green" "Green"] |}]>
            (cache (init tt));
        world := tt;
        calls := calls (init tt) ++ [routes_url] |}) ∧
  get_cached scenario_source routes_url
    {| cache :=
         <[routes_url :=
             {| status_code := 200;
                json_data :=
                  Some [route "Red" "Red"; route "Green" "Green"] |}]>
           (cache (init tt));
       world := tt;
       calls := calls (init tt) ++ [routes_url] |} =
    (inr {| status_code := 200;
            json_data := Some [route "Red" "Red"; route "Green" "Green"] |},
     {| cache :=
          <[routes_url :=
              {| status_code := 200;
                 json_data :=
                   Some [route "Red" "Red"; route "Green" "Green"] |}]>
            (cache (init tt));
        world := tt;
        calls := calls (init tt) ++ [routes_url] |}).
Proof.
  apply (proj1 (proj2 (get_cached_at_most_once scenario_source))
           (init tt) routes_url).
  - reflexivity.
  - reflexivity.
  - simpl. lia.
Defined.


End FetchFacts.

(** ** The Adjacency Builder *)

Module AdjacencyFacts.
Import Fetch Adjacency Records FetchFacts.

Lemma adjacent_empty a b : ¬ adjacent ∅ a b.
Proof. unfold adjacent. rewrite lookup_empty. simpl. set_solver. Qed.

Lemma adjacent_add a b g x y :
  adjacent (add a b g) x y ↔ adjacent g x y ∨ (x = a ∧ y = b).
Proof.
  unfold adjacent, add. destruct (decide (a = x)) as [->|Hne].
  - rewrite lookup_insert_eq. simpl. set_solver.
  - rewrite lookup_insert_ne by done. naive_solver.
Qed.

(** The edge that links a route name and a stop name, in either
    direction. *)
Lemma adjacent_add_pair rn g s x y :
  adjacent (add_pair rn g s) x y ↔
  adjacent g x y ∨
  (x = rn ∧ y = name (res_attributes s)) ∨
  (x = name (res_attributes s) ∧ y = rn).
Proof. unfold add_pair. rewrite !adjacent_add. naive_solver. Qed.

Lemma adjacent_fold rn stops g x y :
  adjacent (fold_left (add_pair rn) stops g) x y ↔
  adjacent g x y ∨
  ∃ s, s ∈ stops ∧
       ((x = rn ∧ y = name (res_attributes s)) ∨
        (x = name (res_attributes s) ∧ y = rn)).
Proof.
  revert g. induction stops as [|s stops IH]; intros g; simpl.
  - split; [by left|]. intros [?|(s & Hs & _)]; [done|].
    by apply elem_of_nil in Hs.
  - rewrite IH, adjacent_add_pair. split.
    + intros [[?|H]|(s' & Hs' & H)].
      * by left.
      * right. exists s. split; [by left|done].
      * right. exists s'. split; [by right|done].
    + intros [?|(s' & [->|Hs']%elem_of_cons & H)].
      * left. by left.
      * left. by right.
      * right. by exists s'.
Qed.

Section WithDataSource.

Context {World : Type}.
Variable requests_get :
  string → list (string * string) → World → option response * World.

Lemma cached_data_le (st st' : state World) url data :
  cache_le st st' → cached_data st url data → cached_data st' url data.
Proof. intros Hle (resp & Hc & Hd). exists resp. split; [by apply Hle|done]. Qed.

Lemma cached_data_functional (st : state World) url d1 d2 :
  cached_data st url d1 → cached_data st url d2 → d1 = d2.
Proof. intros (r1 & H1 & Hd1) (r2 & H2 & Hd2). congruence. Qed.

(** A query that returns records has them in the cache. *)
Lemma query_cached url st data st' :
  bind (get_cached requests_get url) (λ resp, lift (json resp)) st
    = (inr data, st') →
  cached_data st' url data ∧ cache_le st st'.
Proof.
  unfold bind, lift, json.
  destruct (get_cached requests_get url st) as [[e|resp] st1] eqn:H1;
    [done|].
  destruct (json_data resp) as [d|] eqn:Hd; [|done].
  intros [= <- <-]. split.
  - exists resp. split; [by eapply get_cached_stored|done].
  - by eapply get_cached_cache_le.
Qed.



End WithDataSource.


(** The end-to-end scenario: the path from Ashmont to Arlington has three
    labels. *)
Example scenario_path :
  (compute_route_between scenario_source "Ashmont" "Arlington" (init tt)).1
    = inr (Bfs.Return (Some ["Ashmont"; "Red"; "Arlington"])).
Proof. vm_compute. reflexivity. Qed.

End AdjacencyFacts.


(** ** Further properties of the search *)

Module BfsMore.
Import Bfs BfsFacts.

(** X1.  The [while] loop of [bfs] terminates on every map: the budget of
    [bfs_fuel] is never exhausted, and every budget at least that large
    yields the value [bfs] returns. *)
Theorem bfs_terminates g start end_ fuel :
  bfs_fuel g start ≤ fuel →
  ∃ v, bfs g start end_ = Return v ∧
       bfs_loop fuel g end_ [start] [(start, [])] = Return v.
Proof.
  intros Hfuel. destruct (bfs_returns g start end_) as [v Hv].
  exists v. split; [done|]. by eapply bfs_loop_fuel_mono.
Qed.

Lemma bfs_terminates_witness :
  ∃ v, bfs example_network "Ashmont" "Arlington" = Return v ∧
       bfs_loop 100 example_network "Arlington" ["Ashmont"]
         [("Ashmont", [])] = Return v.
Proof.
  apply (bfs_terminates example_network "Ashmont" "Arlington" 100).
  vm_compute. lia.
Defined.

(** X2.  [bfs] returns [None] exactly when no path of the map leads from
    [start] to [end_], and a path exactly when one does. *)
Theorem bfs_none_iff_disconnected g start end_ :
  (bfs g start end_ = Return None ↔ ¬ connected g start end_) ∧
  ((∃ p, bfs g start end_ = Return (Some p)) ↔ connected g start end_).
Proof.
  pose proof (bfs_correct g start end_) as H.
  destruct (bfs g start end_) as [|[p|]] eqn:Hb; [done| |].
  - destruct H as (Hp & _). split.
    + split; [done|]. intros Hn. destruct Hn. by exists p.
    + split; [by exists p|by eexists].
  - assert (Hn : ¬ connected g start end_).
    { intros [k Hk]%connected_hops. by apply (H k). }
    split; [done|]. split; [by intros [p ?]|done].
Qed.

(** X3.  One run of the inner loop of [bfs] keeps [visited] free of
    duplicates, leaves every neighbour of the current node visited, and
    appends to the queue exactly the labels it appended to [visited], each
    with the path extended by the current node. *)
Theorem scan_marks_and_enqueues nbrs curr path visited queue :
  NoDup visited →
  ∃ new,
    scan nbrs curr path visited queue
      = (visited ++ new, queue ++ ((λ n, (n, path ++ [curr])) <$> new)) ∧
    NoDup (visited ++ new) ∧
    (∀ x, x ∈ new ↔ x ∈ nbrs ∧ x ∉ visited) ∧
    (∀ x, x ∈ nbrs → x ∈ visited ++ new).
Proof.
  intros Hnd. exists (fresh nbrs visited).
  split; [apply scan_spec|]. split; [|split].
  - apply NoDup_app. split; [done|]. split; [|apply fresh_NoDup].
    intros x Hx Hf. by apply fresh_elem in Hf as [_ ?].
  - intros x. split; [apply fresh_elem|].
    intros [Hx Hn]. by destruct (fresh_complete x nbrs visited Hx).
  - intros x Hx. apply elem_of_app. by apply fresh_complete.
Qed.

Lemma scan_marks_and_enqueues_witness :
  ∃ new,
    scan ["Ashmont"; "Park"; "Park"] "Red" ["Ashmont"] ["Ashmont"; "Red"] []
      = (["Ashmont"; "Red"] ++ new,
         [] ++ ((λ n, (n, ["Ashmont"] ++ ["Red"])) <$> new)) ∧
    NoDup (["Ashmont"; "Red"] ++ new) ∧
    (∀ x, x ∈ new ↔
          x ∈ ["Ashmont"; "Park"; "Park"] ∧ x ∉ ["Ashmont"; "Red"]) ∧
    (∀ x, x ∈ ["Ashmont"; "Park"; "Park"] → x ∈ ["Ashmont"; "Red"] ++ new).
Proof.
  apply (scan_marks_and_enqueues ["Ashmont"; "Park"; "Park"] "Red"
           ["Ashmont"] ["Ashmont"; "Red"] []).
  apply (bool_decide_unpack _). vm_compute. exact I.
Defined.

(** X4.  When [start] and [end_] differ, every label of a path returned by
    [bfs] is a label of the map. *)
Theorem bfs_path_labels_present g start end_ p x :
  start ≠ end_ → bfs g start end_ = Return (Some p) → x ∈ p →
  present g x.
Proof.
  intros Hne Hb Hx. pose proof (bfs_correct g start end_) as H.
  rewrite Hb in H. destruct H as ((Hh & Hl & Hc) & _ & _).
  destruct p as [|a [|b p]]; simpl in *; [done|congruence|].
  clear Hh Hl Hb. revert a b Hc Hx.
  induction p as [|c p IH]; intros a b Hc Hx; simpl in *.
  - destruct Hc as [Hb _]. apply neighbors_present in Hb as [Ha Hb].
    apply elem_of_cons in Hx as [->|Hx]; [done|].
    by apply list_elem_of_singleton in Hx as ->.
  - destruct Hc as [Hb Hc]. apply neighbors_present in Hb as [Ha _].
    apply elem_of_cons in Hx as [->|Hx]; [done|]. by apply (IH b c).
Qed.

Lemma bfs_path_labels_present_witness : present example_network "Red".
Proof.
  apply (bfs_path_labels_present example_network "Ashmont" "Arlington"
           ["Ashmont"; "Red"; "Arlington"] "Red").
  - discriminate.
  - vm_compute. reflexivity.
  - apply (bool_decide_unpack _). vm_compute. exact I.
Defined.

End BfsMore.

(** ** Further properties of the Fetch Cache *)

Module FetchMore.
Import Fetch FetchFacts.

Section WithDataSource.

Context {World : Type}.
Variable requests_get :
  string → list (string * string) → World → option response * World.

Abbreviation get_cached := (get_cached requests_get).
Abbreviation session := (session requests_get).

(** A response that [get_cached] returns was in the cache or passed
    [raise_for_status]. *)
Lemma get_cached_status st url resp st' :
  get_cached url st = (inr resp, st') →
  cache st !! url = Some resp ∨ ¬ (400 ≤ status_code resp < 600)%Z.
Proof.
  unfold Fetch.get_cached.
  destruct (cache st !! url) as [r|]; [intros [= <- <-]; by left|].
  destruct (requests_get url headers (world st)) as [[r|] w']; [|done].
  unfold raise_for_status.
  destruct (decide (400 ≤ status_code r < 600)%Z); [done|].
  intros [= <- <-]. by right.
Qed.

(** What a successful call does to the cache and to the log. *)
Lemma get_cached_success st url resp st' :
  get_cached url st = (inr resp, st') →
  cache st' !! url = Some resp ∧
  (∀ u, u ≠ url → cache st' !! u = cache st !! u) ∧
  ((cache st !! url = Some resp ∧ calls st' = calls st) ∨
   (cache st !! url = None ∧ calls st' = calls st ++ [url])).
Proof.
  intros H. split; [by eapply get_cached_stored|].
  destruct (get_cached_cases requests_get st url)
    as [(r & Hc & Hr)|[(_ & e & w' & He & _)|(Hc & r & w' & Hr)]].
  - rewrite Hr in H. injection H as <- <-. split; [done|]. by left.
  - rewrite He in H. discriminate.
  - rewrite Hr in H. injection H as <- <-. simpl. split; [|by right].
    intros u Hu. by rewrite lookup_insert_ne.
Qed.

Lemma session_success urls st resps st' :
  (∀ u, u ∈ calls st ↔ is_Some (cache st !! u)) →
  session urls st = (inr resps, st') →
  (∀ u, u ∈ calls st' ↔ is_Some (cache st' !! u)) ∧
  (∀ u, u ∈ calls st' ↔ u ∈ calls st ∨ u ∈ urls) ∧
  Forall2 (λ u r, cache st' !! u = Some r) urls resps.
Proof.
  revert st resps. induction urls as [|url urls IH]; intros st resps Hex; simpl.
  - intros [= <- <-]. split; [done|]. split; [|constructor].
    intros u. split; [by left|]. intros [?|Hu]; [done|].
    by apply elem_of_nil in Hu.
  - unfold bind at 1.
    destruct (get_cached url st) as [[e|r] st1] eqn:H1; [done|].
    unfold bind at 1.
    destruct (Fetch.session requests_get urls st1) as [[e|rs] st2] eqn:H2;
      [done|].
    intros [= <- <-].
    destruct (get_cached_success _ _ _ _ H1) as (Hst & Hother & Hlog).
    assert (Hcalls1 : ∀ u, u ∈ calls st1 ↔ u ∈ calls st ∨ u = url).
    { intros u. destruct Hlog as [[Hc ->]|[Hc ->]].
      - split; [by left|]. intros [?| ->]; [done|]. apply Hex. by eexists.
      - rewrite elem_of_app, list_elem_of_singleton. done. }
    assert (Hex1 : ∀ u, u ∈ calls st1 ↔ is_Some (cache st1 !! u)).
    { intros u. rewrite Hcalls1. destruct (decide (u = url)) as [->|Hne].
      - rewrite Hst. split; [by eexists|by right].
      - rewrite Hother by done. rewrite Hex. naive_solver. }
    destruct (IH st1 rs Hex1 H2) as (Hex2 & Hcalls2 & Hall).
    split; [done|]. split.
    + intros u. rewrite Hcalls2, Hcalls1, elem_of_cons. naive_solver.
    + constructor; [|done].
      pose proof (session_cache_le requests_get urls st1) as Hle.
      rewrite H2 in Hle. by apply Hle.
Qed.

(** X5.  A call of [get_cached] never removes or replaces a cache entry:
    every stored response stays, no URL other than the requested one gets
    an entry, and the Data Source is contacted, once, exactly when the
    requested URL was not cached. *)
Theorem get_cached_frame st url r st' :
  get_cached url st = (r, st') →
  cache_le st st' ∧
  (∀ u, u ≠ url → cache st' !! u = cache st !! u) ∧
  (is_Some (cache st !! url) → st' = st) ∧
  (cache st !! url = None → calls st' = calls st ++ [url]).
Proof.
  intros H. split; [by eapply get_cached_cache_le|].
  destruct (get_cached_cases requests_get st url)
    as [(r' & Hc & Hr)|[(Hc & e & w' & He & _)|(Hc & r' & w' & Hr)]].
  - rewrite Hr in H. injection H as <- <-.
    split; [done|]. split; [done|]. congruence.
  - rewrite He in H. injection H as <- <-. simpl.
    split; [done|]. split; [|done]. intros [? ?]. congruence.
  - rewrite Hr in H. injection H as <- <-. simpl.
    split; [intros u Hu; by rewrite lookup_insert_ne|].
    split; [|done]. intros [? ?]. congruence.
Qed.

(** X6.  Over a process lifetime the cache never holds a response with a
    4xx or 5xx status. *)
Theorem error_status_never_cached w urls url resp :
  cache (session urls (init w)).2 !! url = Some resp →
  ¬ (400 ≤ status_code resp < 600)%Z.
Proof.
  assert (Hgen : ∀ urls (st : state World),
    (∀ u r, cache st !! u = Some r → ¬ (400 ≤ status_code r < 600)%Z) →
    ∀ u r, cache (session urls st).2 !! u = Some r →
           ¬ (400 ≤ status_code r < 600)%Z).
  { clear. induction urls as [|url urls IH]; intros st Hst; simpl; [done|].
    unfold bind at 1.
    destruct (get_cached url st) as [[e|r1] st1] eqn:H1; simpl.
    - intros u r Hu. destruct (get_cached_frame _ _ _ _ H1) as (_ & Hf & Hs & _).
      destruct (get_cached_cases requests_get st url)
        as [(r' & Hc & Hr)|[(Hc & e' & w' & He & _)|(Hc & r' & w' & Hr)]].
      + rewrite Hr in H1. discriminate.
      + rewrite He in H1. injection H1 as <- <-. by eapply Hst.
      + rewrite Hr in H1. discriminate.
    - assert (Hst1 : ∀ u r, cache st1 !! u = Some r →
                            ¬ (400 ≤ status_code r < 600)%Z).
      { intros u r Hu.
        destruct (get_cached_success _ _ _ _ H1) as (Hs & Hother & _).
        destruct (decide (u = url)) as [->|Hne].
        - rewrite Hs in Hu. injection Hu as <-.
          destruct (get_cached_status _ _ _ _ H1) as [Hc|?]; [|done].
          by eapply Hst.
        - rewrite Hother in Hu by done. by eapply Hst. }
      specialize (IH st1 Hst1). unfold bind.
      by destruct (Fetch.session requests_get urls st1) as [[e|rs] st2]. }
  apply Hgen. intros u r Hu. simpl in Hu. by rewrite lookup_empty in Hu.
Qed.

(** X7.  A process lifetime in which no call raises contacts the Data
    Source exactly once for each distinct URL it asks for, and for no
    other URL. *)
Theorem session_contacts_each_url_once w urls resps st' :
  session urls (init w) = (inr resps, st') →
  NoDup (calls st') ∧
  (∀ u, u ∈ calls st' ↔ u ∈ urls) ∧
  length (calls st') = length (remove_dups urls).
Proof.
  intros H.
  assert (Hnd : NoDup (calls st')).
  { pose proof (session_NoDup requests_get urls (init w)) as Hn.
    rewrite H in Hn. apply Hn. split; [constructor|].
    intros u Hu. by apply elem_of_nil in Hu. }
  destruct (session_success urls (init w) resps st') as (_ & Hcalls & _);
    [|done|].
  { intros u. simpl. rewrite lookup_empty. split.
    - intros Hu. by apply elem_of_nil in Hu.
    - by intros [? ?]. }
  assert (Hiff : ∀ u, u ∈ calls st' ↔ u ∈ urls).
  { intros u. rewrite Hcalls. simpl. split; [|by right].
    intros [Hu|?]; [by apply elem_of_nil in Hu|done]. }
  split; [done|]. split; [done|].
  apply Permutation_length, NoDup_Permutation;
    [done|apply NoDup_remove_dups|].
  intros u. by rewrite Hiff, elem_of_remove_dups.
Qed.

(** X8.  In a process lifetime in which no call raises, the i-th call
    returns the response that the final cache holds for the i-th URL;
    calls for the same URL therefore return the same response. *)
Theorem session_repeatable_reads w urls resps st' :
  session urls (init w) = (inr resps, st') →
  length resps = length urls ∧
  (∀ i u, urls !! i = Some u → resps !! i = cache st' !! u) ∧
  (∀ i j u, urls !! i = Some u → urls !! j = Some u →
            resps !! i = resps !! j).
Proof.
  intros H.
  destruct (session_success urls (init w) resps st') as (_ & _ & Hall);
    [|done|].
  { intros u. simpl. rewrite lookup_empty. split.
    - intros Hu. by apply elem_of_nil in Hu.
    - by intros [? ?]. }
  assert (Hi : ∀ i u, urls !! i = Some u → resps !! i = cache st' !! u).
  { intros i u Hu.
    destruct (Forall2_lookup_l _ _ _ _ _ Hall Hu) as (r & Hr & Hc).
    by rewrite Hr, Hc. }
  split; [symmetry; by eapply Forall2_length|]. split; [done|].
  intros i j u Hu1 Hu2. by rewrite (Hi i u), (Hi j u).
Qed.

End WithDataSource.

Lemma get_cached_frame_witness :
  ∃ st',
    cache_le (init tt) st' ∧
    (∀ u, u ≠ routes_url → cache st' !! u = cache (init tt) !! u) ∧
    (is_Some (cache (init tt) !! routes_url) → st' = init tt) ∧
    (cache (init tt) !! routes_url = None →
     calls st' = calls (init tt) ++ [routes_url]).
Proof.
  eexists.
  apply (get_cached_frame scenario_source (init tt) routes_url
           (Fetch.get_cached scenario_source routes_url (init tt)).1).
  vm_compute. reflexivity.
Defined.

Lemma error_status_never_cached_witness :
  ¬ (400 ≤ 200 < 600)%Z.
Proof.
  apply (error_status_never_cached scenario_source tt
           [routes_url; stops_url "Red"; routes_url] routes_url
           {| status_code := 200;
              json_data := Some [route "Red" "Red"; route "Green" "Green"] |}).
  vm_compute. reflexivity.
Defined.

Lemma session_contacts_each_url_once_witness :
  ∃ st' : state unit,
    NoDup (calls st') ∧
    (∀ u, u ∈ calls st' ↔ u ∈ [routes_url; stops_url "Red"; routes_url]) ∧
    length (calls st')
      = length (remove_dups [routes_url; stops_url "Red"; routes_url]).
Proof.
  eexists.
  eapply (session_contacts_each_url_once scenario_source tt
            [routes_url; stops_url "Red"; routes_url]).
  vm_compute. reflexivity.
Defined.

Lemma session_repeatable_reads_witness :
  ∃ resps (st' : state unit),
    length resps = length [routes_url; stops_url "Red"; routes_url] ∧
    (∀ i u, [routes_url; stops_url "Red"; routes_url] !! i = Some u →
            resps !! i = cache st' !! u) ∧
    (∀ i j u, [routes_url; stops_url "Red"; routes_url] !! i = Some u →
              [routes_url; stops_url "Red"; routes_url] !! j = Some u →
              resps !! i = resps !! j).
Proof.
  eexists _, _.
  eapply (session_repeatable_reads scenario_source tt
            [routes_url; stops_url "Red"; routes_url]).
  vm_compute. reflexivity.
Defined.

End FetchMore.

(** ** Further properties of the dictionaries and the statistics *)

Module StatsMore.
Import Fetch Stats StatsFacts.

Lemma dict_get_set k v d k' :
  dict_get (dict_set k v d) k' =
  if decide (k = k') then Some v else dict_get d k'.
Proof.
  induction d as [|[k0 v0] d IH]; simpl.
  - destruct (decide (k = k')); done.
  - destruct (decide (k0 = k)) as [->|Hne]; simpl.
    + destruct (decide (k = k')); done.
    + destruct (decide (k0 = k')) as [->|Hne'].
      * by rewrite decide_False by done.
      * done.
Qed.

Lemma keys_dict_set k v d :
  keys (dict_set k v d) = if decide (k ∈ keys d) then keys d else keys d ++ [k].
Proof.
  unfold keys. induction d as [|[k0 v0] d IH]; csimpl; [done|].
  destruct (decide (k0 = k)) as [->|Hne]; csimpl.
  - rewrite decide_True by (by left). done.
  - rewrite IH. destruct (decide (k ∈ d.*1)) as [Hin|Hnin].
    + rewrite decide_True by (by right). done.
    + rewrite decide_False; [done|].
      intros [?|?]%elem_of_cons; congruence.
Qed.

Lemma dict_get_append k x d k' :
  dict_get (dict_append k x d) k' =
  if decide (k = k') then Some (default [] (dict_get d k) ++ [x])
  else dict_get d k'.
Proof.
  induction d as [|[k0 v0] d IH]; simpl.
  - destruct (decide (k = k')); done.
  - destruct (decide (k0 = k)) as [->|Hne]; simpl.
    + destruct (decide (k = k')); done.
    + destruct (decide (k0 = k')) as [->|Hne'].
      * by rewrite decide_False by done.
      * done.
Qed.

Lemma keys_dict_append k x d :
  keys (dict_append k x d) =
  if decide (k ∈ keys d) then keys d else keys d ++ [k].
Proof.
  unfold keys. induction d as [|[k0 v0] d IH]; csimpl; [done|].
  destruct (decide (k0 = k)) as [->|Hne]; csimpl.
  - rewrite decide_True by (by left). done.
  - rewrite IH. destruct (decide (k ∈ d.*1)) as [Hin|Hnin].
    + rewrite decide_True by (by right). done.
    + rewrite decide_False; [done|].
      intros [?|?]%elem_of_cons; congruence.
Qed.

Lemma dict_get_None d k : dict_get d k = None ↔ k ∉ keys d.
Proof.
  unfold keys. induction d as [|[k0 v0] d IH]; csimpl.
  - split; [|done]. intros _ H. by apply elem_of_nil in H.
  - destruct (decide (k0 = k)) as [->|Hne].
    + split; [done|]. intros H. destruct H. by left.
    + rewrite IH. split.
      * intros H [?|?]%elem_of_cons; [congruence|done].
      * intros H H'. apply H. by right.
Qed.

Lemma keys_step_NoDup (k : string) (ks : list string) :
  NoDup ks → NoDup (if decide (k ∈ ks) then ks else ks ++ [k]).
Proof.
  intros H. destruct (decide (k ∈ ks)); [done|].
  apply NoDup_app. split; [done|]. split; [|apply NoDup_singleton].
  intros x Hx ->%list_elem_of_singleton. done.
Qed.

(** X9.  [d[k] = v] followed by [d[k]] reads [v]; the assignment leaves
    every other key's value, the position of an existing key and the
    absence of duplicate keys as they were, and puts a new key last. *)
Theorem dict_set_get k v d :
  dict_get (dict_set k v d) k = Some v ∧
  (∀ k', k' ≠ k → dict_get (dict_set k v d) k' = dict_get d k') ∧
  (k ∈ keys d → keys (dict_set k v d) = keys d) ∧
  (k ∉ keys d → keys (dict_set k v d) = keys d ++ [k]) ∧
  (NoDup (keys d) → NoDup (keys (dict_set k v d))).
Proof.
  rewrite keys_dict_set. split; [|split; [|split; [|split]]].
  - rewrite dict_get_set. by rewrite decide_True.
  - intros k' Hk. rewrite dict_get_set. by rewrite decide_False.
  - intros Hk. by rewrite decide_True.
  - intros Hk. by rewrite decide_False.
  - apply keys_step_NoDup.
Qed.

(** X10.  [d[k].append(x)] on the [defaultdict] makes [d[k]] the former
    list, empty for a new key, followed by [x]; it leaves every other
    key's value, the position of an existing key and the absence of
    duplicate keys as they were, and puts a new key last. *)
Theorem dict_append_get k x d :
  dict_get (dict_append k x d) k = Some (default [] (dict_get d k) ++ [x]) ∧
  (∀ k', k' ≠ k → dict_get (dict_append k x d) k' = dict_get d k') ∧
  (k ∈ keys d → keys (dict_append k x d) = keys d) ∧
  (k ∉ keys d → keys (dict_append k x d) = keys d ++ [k]) ∧
  (NoDup (keys d) → NoDup (keys (dict_append k x d))).
Proof.
  rewrite keys_dict_append. split; [|split; [|split; [|split]]].
  - rewrite dict_get_append. by rewrite decide_True.
  - intros k' Hk. rewrite dict_get_append. by rewrite decide_False.
  - intros Hk. by rewrite decide_True.
  - intros Hk. by rewrite decide_False.
  - apply keys_step_NoDup.
Qed.

Section Ties.

Context {A : Type}.
Variable key : A → nat.

Lemma min_from_first best l :
  ∃ l1 l2, best :: l = l1 ++ min_from key best l :: l2 ∧
           ∀ x, x ∈ l1 → key (min_from key best l) < key x.
Proof.
  revert best. induction l as [|y l IH]; intros best; simpl.
  - exists [], []. split; [done|]. intros x Hx. by apply elem_of_nil in Hx.
  - destruct (Nat.ltb_spec (key y) (key best)) as [Hlt|Hge].
    + destruct (IH y) as (l1 & l2 & Heq & Hl1).
      exists (best :: l1), l2. split; [simpl; by rewrite Heq|].
      intros x [->|Hx]%elem_of_cons; [|by apply Hl1].
      pose proof (min_from_le key y l y) as Hle.
      assert (key (min_from key y l) ≤ key y) by (apply Hle; by left). lia.
    + destruct (IH best) as (l1 & l2 & Heq & Hl1).
      set (m := min_from key best l) in *.
      destruct l1 as [|b l1]; simpl in Heq.
      * injection Heq as Hb Hl. exists [], (y :: l2).
        split; [simpl; congruence|].
        intros x Hx. by apply elem_of_nil in Hx.
      * injection Heq as Hb Hl. subst b. exists (best :: y :: l1), l2.
        split; [simpl; by rewrite Hl|].
        assert (key m < key best) by (apply Hl1; by left).
        intros x [->|[->|Hx]%elem_of_cons]%elem_of_cons.
        -- done.
        -- lia.
        -- apply Hl1. by right.
Qed.

Lemma max_from_first best l :
  ∃ l1 l2, best :: l = l1 ++ max_from key best l :: l2 ∧
           ∀ x, x ∈ l1 → key x < key (max_from key best l).
Proof.
  revert best. induction l as [|y l IH]; intros best; simpl.
  - exists [], []. split; [done|]. intros x Hx. by apply elem_of_nil in Hx.
  - destruct (Nat.ltb_spec (key best) (key y)) as [Hlt|Hge].
    + destruct (IH y) as (l1 & l2 & Heq & Hl1).
      exists (best :: l1), l2. split; [simpl; by rewrite Heq|].
      intros x [->|Hx]%elem_of_cons; [|by apply Hl1].
      assert (key y ≤ key (max_from key y l))
        by (apply max_from_ge; by left). lia.
    + destruct (IH best) as (l1 & l2 & Heq & Hl1).
      set (m := max_from key best l) in *.
      destruct l1 as [|b l1]; simpl in Heq.
      * injection Heq as Hb Hl. exists [], (y :: l2).
        split; [simpl; congruence|].
        intros x Hx. by apply elem_of_nil in Hx.
      * injection Heq as Hb Hl. subst b. exists (best :: y :: l1), l2.
        split; [simpl; by rewrite Hl|].
        assert (key best < key m) by (apply Hl1; by left).
        intros x [->|[->|Hx]%elem_of_cons]%elem_of_cons.
        -- done.
        -- lia.
        -- apply Hl1. by right.
Qed.

End Ties.

(** X11.  Among routes with the same number of stops the first one in the
    order of the dictionary wins: every route before the one returned by
    [route_with_least_stops] has strictly more stops, every route before
    the one returned by [route_with_most_stops] strictly fewer. *)
Theorem statistics_first_wins d r n :
  (route_with_least_stops d = inr (r, n) →
   n = num_stops d r ∧
   ∃ l1 l2, keys d = l1 ++ r :: l2 ∧
            (∀ x, x ∈ l1 → n < num_stops d x) ∧
            (∀ x, x ∈ l2 → n ≤ num_stops d x)) ∧
  (route_with_most_stops d = inr (r, n) →
   n = num_stops d r ∧
   ∃ l1 l2, keys d = l1 ++ r :: l2 ∧
            (∀ x, x ∈ l1 → num_stops d x < n) ∧
            (∀ x, x ∈ l2 → num_stops d x ≤ n)).
Proof.
  unfold route_with_least_stops, route_with_most_stops, py_min, py_max.
  destruct (keys d) as [|k ks] eqn:Hk; [done|]. split.
  - intros [= <- <-]. split; [done|].
    destruct (min_from_first (num_stops d) k ks) as (l1 & l2 & Heq & Hl1).
    exists l1, l2. split; [done|]. split; [done|].
    intros x Hx. apply min_from_le. rewrite Heq.
    apply elem_of_app. right. by right.
  - intros [= <- <-]. split; [done|].
    destruct (max_from_first (num_stops d) k ks) as (l1 & l2 & Heq & Hl1).
    exists l1, l2. split; [done|]. split; [done|].
    intros x Hx. apply max_from_ge. rewrite Heq.
    apply elem_of_app. right. by right.
Qed.

Lemma statistics_first_wins_witness :
  1 = num_stops [("Red", ["Ashmont"]); ("Blue", ["Bowdoin"])] "Red" ∧
  ∃ l1 l2,
    keys [("Red", ["Ashmont"]); ("Blue", ["Bowdoin"])] = l1 ++ "Red" :: l2 ∧
    (∀ x, x ∈ l1 →
          1 < num_stops [("Red", ["Ashmont"]); ("Blue", ["Bowdoin"])] x) ∧
    (∀ x, x ∈ l2 →
          1 ≤ num_stops [("Red", ["Ashmont"]); ("Blue", ["Bowdoin"])] x).
Proof.
  apply (proj1 (statistics_first_wins
                  [("Red", ["Ashmont"]); ("Blue", ["Bowdoin"])] "Red" 1)).
  reflexivity.
Defined.

End StatsMore.

(** ** The analyses as functions of the cached records *)

Module AnalysesFacts.
Import Fetch Stats Adjacency Records FetchFacts AdjacencyFacts.

Section WithDataSource.

Context {World : Type}.
Variable requests_get :
  string → list (string * string) → World → option response * World.

(** A query whose records are cached returns them and changes nothing. *)
Lemma query_hit url (st : state World) data :
  cached_data st url data →
  bind (get_cached requests_get url) (λ resp, lift (json resp)) st
    = (inr data, st).
Proof.
  intros (resp & Hc & Hd). unfold bind.
  rewrite (get_cached_hit requests_get st url resp Hc).
  unfold lift, json. by rewrite Hd.
Qed.

(** The loop over the routes that the three analyses share, with the pure
    part [f] of its body. *)
Lemma loop_spec {S} (f : S → resource → list resource → S) routes acc st
    acc' st' :
  for_each
    (λ a r, bind (get_all_stops_for_route requests_get (res_id r))
              (λ stops, ret (f a r stops)))
    routes acc st = (inr acc', st') →
  cache_le st st' ∧
  ∃ stopss,
    Forall2 (λ r stops, cached_data st' (stops_url (res_id r)) stops)
      routes stopss ∧
    acc' = fold_left (λ a p, f a p.1 p.2) (zip routes stopss) acc.
Proof.
  revert acc st. induction routes as [|r routes IH]; intros acc st; simpl.
  - intros [= <- <-]. split; [apply cache_le_refl|]. by exists [].
  - unfold bind at 1.
    destruct (bind (get_all_stops_for_route requests_get (res_id r)) _ st)
      as [[e|a1] st1] eqn:H1; [done|].
    intros Hrest. destruct (IH _ _ Hrest) as (Hle & stopss & Hall & ->).
    unfold bind at 1 in H1.
    destruct (get_all_stops_for_route requests_get (res_id r) st)
      as [[e|stops] st0] eqn:H0; [done|].
    injection H1 as <- <-.
    destruct (query_cached requests_get _ _ _ _ H0) as [Hc0 Hle0].
    split; [by eapply cache_le_trans|].
    exists (stops :: stopss). split; [|done].
    constructor; [by eapply cached_data_le|done].
Qed.

Lemma loop_cached {S} (f : S → resource → list resource → S) routes stopss
    acc (st : state World) :
  Forall2 (λ r stops, cached_data st (stops_url (res_id r)) stops)
    routes stopss →
  for_each
    (λ a r, bind (get_all_stops_for_route requests_get (res_id r))
              (λ stops, ret (f a r stops)))
    routes acc st
  = (inr (fold_left (λ a p, f a p.1 p.2) (zip routes stopss) acc), st).
Proof.
  intros Hall. revert acc.
  induction Hall as [|r stops routes stopss Hc _ IH]; intros acc; [done|].
  simpl. unfold bind at 1. unfold bind at 1.
  unfold get_all_stops_for_route. rewrite (query_hit _ _ _ Hc).
  unfold ret at 1. apply IH.
Qed.

Lemma analysis_spec {S} (f : S → resource → list resource → S) init st a st' :
  bind (get_all_subway_routes requests_get)
    (λ routes,
       for_each
         (λ a r, bind (get_all_stops_for_route requests_get (res_id r))
                   (λ stops, ret (f a r stops)))
         routes init) st = (inr a, st') →
  cache_le st st' ∧
  ∃ routes stopss,
    loaded st' routes stopss ∧
    a = fold_left (λ a p, f a p.1 p.2) (zip routes stopss) init.
Proof.
  unfold bind at 1.
  destruct (get_all_subway_routes requests_get st)
    as [[e|routes] st0] eqn:H0; [done|].
  intros Hloop. destruct (loop_spec _ _ _ _ _ _ Hloop) as (Hle & stopss & Hall & ->).
  destruct (query_cached requests_get _ _ _ _ H0) as [Hc0 Hle0].
  split; [by eapply cache_le_trans|].
  exists routes, stopss. split; [|done].
  split; [by eapply cached_data_le|done].
Qed.

Lemma analysis_cached {S} (f : S → resource → list resource → S) init
    (st : state World) routes stopss :
  loaded st routes stopss →
  bind (get_all_subway_routes requests_get)
    (λ routes,
       for_each
         (λ a r, bind (get_all_stops_for_route requests_get (res_id r))
                   (λ stops, ret (f a r stops)))
         routes init) st
  = (inr (fold_left (λ a p, f a p.1 p.2) (zip routes stopss) init), st).
Proof.
  intros [Hr Hall]. unfold bind at 1.
  unfold get_all_subway_routes. rewrite (query_hit _ _ _ Hr).
  by apply loop_cached.
Qed.


Lemma loaded_functional (st : state World) routes stopss routes' stopss' :
  loaded st routes stopss → loaded st routes' stopss' →
  routes' = routes ∧ stopss' = stopss.
Proof.
  intros [Hr Hall] [Hr' Hall'].
  assert (routes' = routes) as -> by by eapply cached_data_functional.
  split; [done|]. clear Hr Hr'. revert stopss' Hall'.
  induction Hall as [|r stops routes stopss Hc _ IH]; intros stopss' Hall'.
  - by inversion Hall'.
  - inversion Hall' as [|? stops' ? stopss'' Hc' Hall'']; subst.
    f_equal; [by eapply cached_data_functional|by apply IH].
Qed.

(** The three analyses, read off the cached records. *)
Lemma get_route_to_stops_spec st d st' :
  get_route_to_stops requests_get st = (inr d, st') →
  cache_le st st' ∧
  ∃ routes stopss,
    loaded st' routes stopss ∧ d = route_to_stops_of routes stopss.
Proof.
  exact (analysis_spec
           (λ d r stops,
              dict_set (long_name (res_attributes r))
                ((λ stop, name (res_attributes stop)) <$> stops) d)
           [] st d st').
Qed.

Lemma get_stop_to_routes_spec st d st' :
  get_stop_to_routes requests_get st = (inr d, st') →
  cache_le st st' ∧
  ∃ routes stopss,
    loaded st' routes stopss ∧ d = stop_to_routes_of routes stopss.
Proof.
  exact (analysis_spec
           (λ d r stops,
              fold_left
                (λ d stop,
                   dict_append (name (res_attributes stop))
                     (long_name (res_attributes r)) d)
                stops d)
           [] st d st').
Qed.

Lemma build_neighbors_spec st g st' :
  build_neighbors requests_get st = (inr g, st') →
  cache_le st st' ∧
  ∃ routes stopss,
    loaded st' routes stopss ∧ g = neighbors_of_records routes stopss.
Proof.
  exact (analysis_spec
           (λ g r stops,
              fold_left (add_pair (long_name (res_attributes r))) stops g)
           ∅ st g st').
Qed.

Lemma analyses_cached (st : state World) routes stopss :
  loaded st routes stopss →
  get_route_to_stops requests_get st
    = (inr (route_to_stops_of routes stopss), st) ∧
  get_stop_to_routes requests_get st
    = (inr (stop_to_routes_of routes stopss), st) ∧
  build_neighbors requests_get st
    = (inr (neighbors_of_records routes stopss), st).
Proof.
  intros Hl. split; [|split].
  - exact (analysis_cached
             (λ d r stops,
                dict_set (long_name (res_attributes r))
                  ((λ stop, name (res_attributes stop)) <$> stops) d)
             [] st routes stopss Hl).
  - exact (analysis_cached
             (λ d r stops,
                fold_left
                  (λ d stop,
                     dict_append (name (res_attributes stop))
                       (long_name (res_attributes r)) d)
                  stops d)
             [] st routes stopss Hl).
  - exact (analysis_cached
             (λ g r stops,
                fold_left (add_pair (long_name (res_attributes r))) stops g)
             ∅ st routes stopss Hl).
Qed.

End WithDataSource.

End AnalysesFacts.

(** ** Running the analyses again *)

Module AnalysesMore.
Import Fetch Stats Adjacency Records FetchFacts AdjacencyFacts AnalysesFacts.

Section WithDataSource.

Context {World : Type}.
Variable requests_get :
  string → list (string * string) → World → option response * World.

Lemma replayable_ret {A} (a : A) : replayable (World:=World) (ret a).
Proof.
  intros st a' st' [= <- <-]. split; [apply cache_le_refl|]. done.
Qed.

Lemma replayable_lift {A} (r : exception + A) :
  replayable (World:=World) (lift r).
Proof.
  intros st a st'. unfold lift. intros [= -> <-].
  split; [apply cache_le_refl|]. done.
Qed.

Lemma replayable_get_cached url : replayable (get_cached requests_get url).
Proof.
  intros st resp st' H. split; [by eapply get_cached_cache_le|].
  intros st'' Hle. apply get_cached_hit, Hle.
  by eapply get_cached_stored.
Qed.

Lemma replayable_bind {A B} (m : M World A) (k : A → M World B) :
  replayable m → (∀ a, replayable (k a)) → replayable (bind m k).
Proof.
  intros Hm Hk st b st2. unfold bind.
  destruct (m st) as [[e|a] st1] eqn:H1; [done|]. intros H2.
  destruct (Hm _ _ _ H1) as [Hle1 Hm'].
  destruct (Hk a _ _ _ H2) as [Hle2 Hk'].
  split; [by eapply cache_le_trans|].
  intros st'' Hle. rewrite Hm' by by eapply cache_le_trans.
  by apply Hk'.
Qed.

Lemma replayable_for_each {A S} (f : S → A → M World S) l acc :
  (∀ acc x, replayable (f acc x)) → replayable (for_each f l acc).
Proof.
  intros Hf. revert acc. induction l as [|x l IH]; intros acc; simpl.
  - apply replayable_ret.
  - apply replayable_bind; [apply Hf|apply IH].
Qed.

Lemma replayable_query url :
  replayable (bind (get_cached requests_get url) (λ resp, lift (json resp))).
Proof.
  apply replayable_bind; [apply replayable_get_cached|].
  intros resp. apply replayable_lift.
Qed.

(** X12.  Every query and analysis of the program that has returned a
    value returns the same value when run again in any later state of the
    process, and that run changes nothing: it contacts the Data Source for
    no URL. *)
Theorem analyses_replayable :
  replayable (get_all_subway_routes requests_get) ∧
  (∀ route_id, replayable (get_all_stops_for_route requests_get route_id)) ∧
  replayable (get_route_to_stops requests_get) ∧
  replayable (get_stop_to_routes requests_get) ∧
  replayable (compute_route_with_least_stops requests_get) ∧
  replayable (compute_route_with_most_stops requests_get) ∧
  replayable (q2_transfer_stops requests_get) ∧
  replayable (build_neighbors requests_get) ∧
  (∀ stop1 stop2,
     replayable (compute_route_between requests_get stop1 stop2)).
Proof.
  assert (Hloop : ∀ S (f : S → resource → list resource → S) init,
    replayable
      (bind (get_all_subway_routes requests_get)
         (λ routes,
            for_each
              (λ a r, bind (get_all_stops_for_route requests_get (res_id r))
                        (λ stops, ret (f a r stops)))
              routes init))).
  { intros S f init. apply replayable_bind; [apply replayable_query|].
    intros routes. apply replayable_for_each. intros acc r.
    apply replayable_bind; [apply replayable_query|].
    intros stops. apply replayable_ret. }
  assert (Hrts : replayable (get_route_to_stops requests_get)).
  { exact (Hloop _
             (λ d r stops,
                dict_set (long_name (res_attributes r))
                  ((λ stop, name (res_attributes stop)) <$> stops) d) []). }
  assert (Hstr : replayable (get_stop_to_routes requests_get)).
  { exact (Hloop _
             (λ d r stops,
                fold_left
                  (λ d stop,
                     dict_append (name (res_attributes stop))
                       (long_name (res_attributes r)) d)
                  stops d) []). }
  assert (Hbn : replayable (build_neighbors requests_get)).
  { exact (Hloop _
             (λ g r stops,
                fold_left (add_pair (long_name (res_attributes r))) stops g)
             ∅). }
  split; [apply replayable_query|]. split; [intros; apply replayable_query|].
  split; [done|]. split; [done|].
  split; [apply replayable_bind; [done|intros; apply replayable_lift]|].
  split; [apply replayable_bind; [done|intros; apply replayable_lift]|].
  split; [apply replayable_bind; [done|intros; apply replayable_ret]|].
  split; [done|].
  intros stop1 stop2. apply replayable_bind; [done|].
  intros g. apply replayable_ret.
Qed.


End WithDataSource.

Lemma analyses_replayable_witness :
  get_route_to_stops scenario_source
    (get_route_to_stops scenario_source (init tt)).2
  = (inr [("Red", ["Ashmont"; "Park"; "Arlington"]);
          ("Green", ["Park"; "Arlington"])],
     (get_route_to_stops scenario_source (init tt)).2).
Proof.
  assert (H : get_route_to_stops scenario_source (init tt)
              = (inr [("Red", ["Ashmont"; "Park"; "Arlington"]);
                      ("Green", ["Park"; "Arlington"])],
                 (get_route_to_stops scenario_source (init tt)).2))
    by (vm_compute; reflexivity).
  apply (proj2 (proj1 (proj2 (proj2 (analyses_replayable scenario_source)))
                  (init tt) _ _ H)).
  apply cache_le_refl.
Defined.


End AnalysesMore.

(** ** What the analyses compute from the records *)

Module RecordsFacts.
Import Fetch Stats Adjacency Records StatsFacts StatsMore AdjacencyFacts
  AnalysesFacts.

Lemma fold_left_fmap {A B C} (f : A → B → A) (g : C → B) (l : list C) a :
  fold_left f (g <$> l) a = fold_left (λ a x, f a (g x)) l a.
Proof. revert a. induction l as [|x l IH]; intros a; csimpl; [done|apply IH]. Qed.

Lemma pairs_elem routes stopss a b :
  (a, b) ∈ pairs routes stopss ↔
  ∃ p s, p ∈ zip routes stopss ∧ s ∈ p.2 ∧
         a = stop_name s ∧ b = route_name p.1.
Proof.
  unfold pairs. rewrite list_elem_of_bind. split.
  - intros (p & Hab & Hp). apply list_elem_of_fmap in Hab as (s & [= -> ->] & Hs).
    by exists p, s.
  - intros (p & s & Hp & Hs & -> & ->). exists p. split; [|done].
    apply list_elem_of_fmap. by exists s.
Qed.

(** The stop-to-routes dictionary is the result of appending the pairs
    one by one. *)
Lemma stop_to_routes_pairs routes stopss :
  stop_to_routes_of routes stopss =
  fold_left (λ d q, dict_append q.1 q.2 d) (pairs routes stopss) [].
Proof.
  unfold stop_to_routes_of, pairs. generalize (zip routes stopss) as recs.
  generalize ([] : dict) as d0. intros d0 recs. revert d0.
  induction recs as [|p recs IH]; intros d0; [done|].
  rewrite bind_cons, fold_left_app. simpl. rewrite IH. f_equal.
  by rewrite fold_left_fmap.
Qed.

Lemma appends_get qs d0 n :
  default [] (dict_get (fold_left (λ d q, dict_append q.1 q.2 d) qs d0) n) =
  default [] (dict_get d0 n) ++ (filter (λ q, q.1 = n) qs).*2.
Proof.
  revert d0. induction qs as [|[a b] qs IH]; intros d0; simpl.
  - by rewrite app_nil_r.
  - rewrite IH, dict_get_append, filter_cons. simpl.
    destruct (decide (a = n)) as [->|Hne]; csimpl.
    + by rewrite <- app_assoc.
    + done.
Qed.

Lemma appends_keys qs d0 :
  NoDup (keys d0) →
  NoDup (keys (fold_left (λ d q, dict_append q.1 q.2 d) qs d0)) ∧
  ∀ n, n ∈ keys (fold_left (λ d q, dict_append q.1 q.2 d) qs d0) ↔
       n ∈ keys d0 ∨ n ∈ qs.*1.
Proof.
  revert d0. induction qs as [|[a b] qs IH]; intros d0 Hnd; csimpl.
  - split; [done|]. intros n. split; [by left|].
    intros [?|Hn]; [done|]. by apply elem_of_nil in Hn.
  - destruct (IH (dict_append a b d0)) as [Hnd' Hin].
    { rewrite keys_dict_append. by apply keys_step_NoDup. }
    split; [done|]. intros n. rewrite Hin, keys_dict_append, elem_of_cons.
    destruct (decide (a ∈ keys d0)).
    + naive_solver.
    + rewrite elem_of_app, list_elem_of_singleton. naive_solver.
Qed.

(** The route-to-stops dictionary keeps, for each route name, the stops of
    the last record that bears the name. *)
Lemma sets_get recs d0 k :
  dict_get
    (fold_left (λ d p, dict_set (route_name p.1) (stop_name <$> p.2) d)
       recs d0) k =
  match last (filter (λ p : resource * list resource, route_name p.1 = k) recs)
  with
  | Some p => Some (stop_name <$> p.2)
  | None => dict_get d0 k
  end.
Proof.
  revert d0. induction recs as [|p recs IH]; intros d0; simpl; [done|].
  rewrite IH, filter_cons, dict_get_set.
  destruct (decide (route_name p.1 = k)) as [Hk|Hk].
  - rewrite last_cons. by destruct (last _).
  - done.
Qed.

Lemma sets_keys (recs : list (resource * list resource)) d0 :
  NoDup (keys d0) →
  NoDup (keys (fold_left
                 (λ d p, dict_set (route_name p.1) (stop_name <$> p.2) d)
                 recs d0)) ∧
  ∀ n, n ∈ keys (fold_left
                   (λ d p, dict_set (route_name p.1) (stop_name <$> p.2) d)
                   recs d0) ↔
       n ∈ keys d0 ∨ n ∈ route_name <$> recs.*1.
Proof.
  revert d0. induction recs as [|p recs IH]; intros d0 Hnd; csimpl.
  - split; [done|]. intros n. split; [by left|].
    intros [?|Hn]; [done|]. by apply elem_of_nil in Hn.
  - destruct (IH (dict_set (route_name p.1) (stop_name <$> p.2) d0))
      as [Hnd' Hin].
    { rewrite keys_dict_set. by apply keys_step_NoDup. }
    split; [done|]. intros n. rewrite Hin, keys_dict_set, elem_of_cons.
    destruct (decide (route_name p.1 ∈ keys d0)).
    + naive_solver.
    + rewrite elem_of_app, list_elem_of_singleton. naive_solver.
Qed.

(** With pairwise distinct route names nothing is overwritten. *)
Lemma sets_distinct (recs : list (resource * list resource)) d0 :
  NoDup (keys d0 ++ (route_name <$> recs.*1)) →
  fold_left (λ d (p : resource * list resource),
               dict_set (route_name p.1) (stop_name <$> p.2) d) recs d0
  = d0 ++ ((λ p : resource * list resource,
              (route_name p.1, stop_name <$> p.2)) <$> recs).
Proof.
  revert d0. induction recs as [|p recs IH]; intros d0 Hnd; csimpl.
  - by rewrite app_nil_r.
  - assert (Hfresh : route_name p.1 ∉ keys d0).
    { apply NoDup_app in Hnd as (_ & Hd & _). intros Hin.
      apply (Hd _ Hin). csimpl. by left. }
    assert (Hset : dict_set (route_name p.1) (stop_name <$> p.2) d0
                   = d0 ++ [(route_name p.1, stop_name <$> p.2)]).
    { clear -Hfresh. unfold keys in Hfresh.
      induction d0 as [|[k0 v0] d0 IHd]; csimpl; [done|].
      destruct (decide (k0 = route_name p.1)) as [->|Hne].
      - destruct Hfresh. csimpl. by left.
      - rewrite IHd; [done|]. intros Hin. apply Hfresh. csimpl. by right. }
    rewrite Hset, IH.
    + by rewrite <- app_assoc.
    + unfold keys in *. rewrite fmap_app. csimpl.
      rewrite <- app_assoc. done.
Qed.

(** The edges of the adjacency map are the pairs, in both directions. *)
Lemma neighbors_pairs routes stopss x y :
  adjacent (neighbors_of_records routes stopss) x y ↔
  (x, y) ∈ pairs routes stopss ∨ (y, x) ∈ pairs routes stopss.
Proof.
  rewrite !pairs_elem. unfold neighbors_of_records.
  generalize (zip routes stopss) as recs. intros recs.
  assert (Hgen : ∀ g0,
    adjacent (fold_left (λ g p, fold_left (add_pair (route_name p.1)) p.2 g)
                recs g0) x y ↔
    adjacent g0 x y ∨
    ∃ (p : resource * list resource) s, p ∈ recs ∧ s ∈ p.2 ∧
      ((x = route_name p.1 ∧ y = stop_name s) ∨
       (x = stop_name s ∧ y = route_name p.1))).
  { induction recs as [|p recs IH]; intros g0; simpl.
    - split; [by left|]. intros [?|(p & s & Hp & _)]; [done|].
      by apply elem_of_nil in Hp.
    - rewrite IH, adjacent_fold. split.
      + intros [[?|(s & Hs & H)]|(p' & s & Hp' & Hs & H)].
        * by left.
        * right. exists p, s. split; [by left|done].
        * right. exists p', s. split; [by right|done].
      + intros [?|(p' & s & [->|Hp']%elem_of_cons & Hs & H)].
        * left. by left.
        * left. right. by exists s.
        * right. by exists p', s. }
  rewrite Hgen. split.
  - intros [H|(p & s & Hp & Hs & [[-> ->]|[-> ->]])].
    + by apply adjacent_empty in H.
    + right. by exists p, s.
    + left. by exists p, s.
  - intros [(p & s & Hp & Hs & -> & ->)|(p & s & Hp & Hs & -> & ->)];
      right; exists p, s; naive_solver.
Qed.

End RecordsFacts.

(** ** The values of the analyses *)

Module RecordsMore.
Import Fetch Stats Adjacency Records StatsFacts StatsMore FetchFacts
  AdjacencyFacts AnalysesFacts RecordsFacts.

Lemma loaded_zip_fst {World} (st : state World) routes stopss :
  loaded st routes stopss → (zip routes stopss).*1 = routes.
Proof.
  intros [_ Hall]. apply fst_zip. by rewrite (Forall2_length _ _ _ Hall).
Qed.

Lemma dict_get_NoDup d k v :
  NoDup (keys d) → (k, v) ∈ d → dict_get d k = Some v.
Proof.
  unfold keys. induction d as [|[k0 v0] d IH]; csimpl.
  - intros _ H. by apply elem_of_nil in H.
  - intros [Hk Hnd]%NoDup_cons [[= -> ->]|Hin]%elem_of_cons.
    + by rewrite decide_True.
    + rewrite decide_False; [by apply IH|].
      intros ->. apply Hk. apply list_elem_of_fmap. by exists (k, v).
Qed.

Section WithDataSource.

Context {World : Type}.
Variable requests_get :
  string → list (string * string) → World → option response * World.

(** X14.  In the dictionary returned by [get_stop_to_routes] no stop name
    is a key twice, the keys are the stop names of the records, and the
    list of a stop name holds the names of the routes whose records list
    it, in the order of the records and once for each listing. *)
Theorem get_stop_to_routes_lists st d st' :
  get_stop_to_routes requests_get st = (inr d, st') →
  ∃ routes stopss,
    loaded st' routes stopss ∧
    NoDup (keys d) ∧
    (∀ n, n ∈ keys d ↔ n ∈ (pairs routes stopss).*1) ∧
    (∀ n, default [] (dict_get d n)
          = (filter (λ q, q.1 = n) (pairs routes stopss)).*2).
Proof.
  intros H.
  apply get_stop_to_routes_spec in H as (_ & routes & stopss & Hl & ->).
  exists routes, stopss. split; [done|]. rewrite stop_to_routes_pairs.
  destruct (appends_keys (pairs routes stopss) []) as [Hnd Hin];
    [constructor|].
  split; [done|]. split.
  - intros n. rewrite Hin. split; [|by right].
    intros [Hn|?]; [by apply elem_of_nil in Hn|done].
  - intros n. by rewrite appends_get.
Qed.

(** X15.  In the dictionary returned by [get_route_to_stops] no route name
    is a key twice, the keys are the long names of the route records, and
    a name read back gives the stop names of the last route record that
    bears it; when the long names are pairwise distinct the dictionary
    lists the routes in the order of the records, each with the names of
    its stops. *)
Theorem get_route_to_stops_last_wins st d st' :
  get_route_to_stops requests_get st = (inr d, st') →
  ∃ routes stopss,
    loaded st' routes stopss ∧
    NoDup (keys d) ∧
    (∀ k, k ∈ keys d ↔ k ∈ route_name <$> routes) ∧
    (∀ k, dict_get d k =
          (λ p : resource * list resource, stop_name <$> p.2) <$>
          last (filter (λ p : resource * list resource, route_name p.1 = k)
                  (zip routes stopss))) ∧
    (NoDup (route_name <$> routes) →
     d = (λ p : resource * list resource,
            (route_name p.1, stop_name <$> p.2)) <$> zip routes stopss).
Proof.
  intros H.
  apply get_route_to_stops_spec in H as (_ & routes & stopss & Hl & ->).
  exists routes, stopss. split; [done|]. unfold route_to_stops_of.
  destruct (sets_keys (zip routes stopss) []) as [Hnd Hin]; [constructor|].
  rewrite (loaded_zip_fst _ _ _ Hl) in Hin.
  split; [done|]. split; [|split].
  - intros k. rewrite Hin. split; [|by right].
    intros [Hk|?]; [by apply elem_of_nil in Hk|done].
  - intros k. rewrite sets_get. by destruct (last _).
  - intros Hdistinct. rewrite sets_distinct; [done|].
    simpl. by rewrite (loaded_zip_fst _ _ _ Hl).
Qed.

(** X16.  The adjacency map returned by [build_neighbors] has no edge
    other than those of the records: two labels are adjacent exactly when
    one is the name of a stop and the other the long name of a route whose
    stop records list that stop. *)
Theorem build_neighbors_edges st g st' :
  build_neighbors requests_get st = (inr g, st') →
  ∃ routes stopss,
    loaded st' routes stopss ∧
    ∀ x y, adjacent g x y ↔
           (x, y) ∈ pairs routes stopss ∨ (y, x) ∈ pairs routes stopss.
Proof.
  intros H.
  apply build_neighbors_spec in H as (_ & routes & stopss & Hl & ->).
  exists routes, stopss. split; [done|]. apply neighbors_pairs.
Qed.

(** X17.  When the long names of the routes are pairwise distinct, the two
    dictionaries of [q2] are inverse to each other: a route name is in the
    list of a stop name exactly when the stop name is in the list of the
    route name.  The second dictionary is built from the cache alone. *)
Theorem dictionaries_inverse st d1 st1 d2 st2 :
  get_route_to_stops requests_get st = (inr d1, st1) →
  get_stop_to_routes requests_get st1 = (inr d2, st2) →
  (∀ routes, cached_data st1 routes_url routes →
             NoDup (route_name <$> routes)) →
  st2 = st1 ∧
  ∀ r s, r ∈ default [] (dict_get d2 s) ↔ s ∈ default [] (dict_get d1 r).
Proof.
  intros H1 H2 Hdistinct.
  apply get_route_to_stops_spec in H1 as (_ & routes & stopss & Hl & ->).
  destruct (analyses_cached requests_get st1 routes stopss Hl)
    as (_ & H2' & _).
  rewrite H2' in H2. injection H2 as <- <-. split; [done|].
  intros r s. rewrite stop_to_routes_pairs, appends_get. simpl.
  destruct Hl as [Hr Hall]. pose proof (Hdistinct _ Hr) as Hnd.
  assert (Hzip : (zip routes stopss).*1 = routes).
  { apply fst_zip. by rewrite (Forall2_length _ _ _ Hall). }
  unfold route_to_stops_of. rewrite sets_distinct
    by (simpl; by rewrite Hzip).
  simpl.
  set (d1 := (λ p : resource * list resource,
                (route_name p.1, stop_name <$> p.2)) <$> zip routes stopss).
  assert (Hkeys : keys d1 = route_name <$> routes).
  { unfold keys, d1. rewrite <- Hzip at 2.
    rewrite <- !list_fmap_compose. done. }
  assert (Hlhs : r ∈ (filter (λ q : string * string, q.1 = s)
                        (pairs routes stopss)).*2 ↔
                 (s, r) ∈ pairs routes stopss).
  { rewrite list_elem_of_fmap. split.
    - intros ([a b] & -> & [Ha Hin]%list_elem_of_filter). simpl in Ha.
      by subst a.
    - intros Hin. exists (s, r). split; [done|].
      by apply list_elem_of_filter. }
  rewrite Hlhs, pairs_elem. split.
  - intros (p & s0 & Hp & Hs0 & -> & ->).
    rewrite (dict_get_NoDup d1 (route_name p.1) (stop_name <$> p.2)).
    + simpl. apply list_elem_of_fmap. by exists s0.
    + by rewrite Hkeys.
    + apply list_elem_of_fmap. by exists p.
  - destruct (dict_get d1 r) as [v|] eqn:Hv; simpl;
      [|intros Hs; by apply elem_of_nil in Hs].
    apply dict_get_elem in Hv.
    apply list_elem_of_fmap in Hv as (p & [= -> ->] & Hp).
    intros (s0 & -> & Hs0)%list_elem_of_fmap. by exists p, s0.
Qed.

End WithDataSource.

Lemma get_stop_to_routes_lists_witness :
  ∃ routes stopss,
    loaded (get_stop_to_routes scenario_source (init tt)).2 routes stopss ∧
    NoDup (keys [("Ashmont", ["Red"]); ("Park", ["Red"; "Green"]);
                 ("Arlington", ["Red"; "Green"])]) ∧
    (∀ n, n ∈ keys [("Ashmont", ["Red"]); ("Park", ["Red"; "Green"]);
                    ("Arlington", ["Red"; "Green"])] ↔
          n ∈ (pairs routes stopss).*1) ∧
    (∀ n, default [] (dict_get [("Ashmont", ["Red"]);
                                ("Park", ["Red"; "Green"]);
                                ("Arlington", ["Red"; "Green"])] n)
          = (filter (λ q, q.1 = n) (pairs routes stopss)).*2).
Proof.
  apply (get_stop_to_routes_lists scenario_source (init tt)).
  vm_compute. reflexivity.
Defined.

Lemma get_route_to_stops_last_wins_witness :
  ∃ routes stopss,
    loaded (get_route_to_stops scenario_source (init tt)).2 routes stopss ∧
    NoDup (keys [("Red", ["Ashmont"; "Park"; "Arlington"]);
                 ("Green", ["Park"; "Arlington"])]) ∧
    (∀ k, k ∈ keys [("Red", ["Ashmont"; "Park"; "Arlington"]);
                    ("Green", ["Park"; "Arlington"])] ↔
          k ∈ route_name <$> routes) ∧
    (∀ k, dict_get [("Red", ["Ashmont"; "Park"; "Arlington"]);
                    ("Green", ["Park"; "Arlington"])] k =
          (λ p : resource * list resource, stop_name <$> p.2) <$>
          last (filter (λ p : resource * list resource, route_name p.1 = k)
                  (zip routes stopss))) ∧
    (NoDup (route_name <$> routes) →
     [("Red", ["Ashmont"; "Park"; "Arlington"]);
      ("Green", ["Park"; "Arlington"])]
     = (λ p : resource * list resource,
          (route_name p.1, stop_name <$> p.2)) <$> zip routes stopss).
Proof.
  apply (get_route_to_stops_last_wins scenario_source (init tt)).
  vm_compute. reflexivity.
Defined.

Lemma build_neighbors_edges_witness :
  ∃ routes stopss,
    loaded (build_neighbors scenario_source (init tt)).2 routes stopss ∧
    ∀ x y,
      adjacent
        (neighbors_of_records
           [route "Red" "Red"; route "Green" "Green"]
           [[stop "place-asmnl" "Ashmont"; stop "place-pktrm" "Park";
             stop "place-armnl" "Arlington"];
            [stop "place-pktrm" "Park"; stop "place-armnl" "Arlington"]])
        x y ↔
      (x, y) ∈ pairs routes stopss ∨ (y, x) ∈ pairs routes stopss.
Proof.
  apply (build_neighbors_edges scenario_source (init tt)).
  vm_cast_no_check (eq_refl (build_neighbors scenario_source (init tt))).
Defined.

Lemma dictionaries_inverse_witness :
  (get_route_to_stops scenario_source (init tt)).2
    = (get_route_to_stops scenario_source (init tt)).2 ∧
  ∀ r s,
    r ∈ default [] (dict_get [("Ashmont", ["Red"]);
                              ("Park", ["Red"; "Green"]);
                              ("Arlington", ["Red"; "Green"])] s) ↔
    s ∈ default [] (dict_get [("Red", ["Ashmont"; "Park"; "Arlington"]);
                              ("Green", ["Park"; "Arlington"])] r).
Proof.
  apply (dictionaries_inverse scenario_source (init tt)).
  - vm_compute. reflexivity.
  - vm_compute. reflexivity.
  - intros routes (resp & Hc & Hd). vm_compute in Hc.
    injection Hc as <-. simpl in Hd. injection Hd as <-.
    apply (bool_decide_unpack _). vm_compute. exact I.
Defined.

End RecordsMore.

(** ** The route between two stops *)

Module RouteMore.
Import Fetch Stats Adjacency Records Cli BfsFacts FetchFacts AdjacencyFacts
  AnalysesFacts.

Lemma neighbors_of_elements (g : gmap string (gset string)) a b :
  b ∈ Bfs.neighbors_of (elements <$> g) a ↔ adjacent g a b.
Proof.
  unfold Bfs.neighbors_of, adjacent. rewrite lookup_fmap.
  destruct (g !! a) as [s|]; simpl.
  - apply elem_of_elements.
  - split; intros H; [by apply elem_of_nil in H|set_solver].
Qed.

Lemma linked_is_path g s e p :
  linked g s e p ↔ Bfs.is_path (elements <$> g) s e p.
Proof.
  unfold linked, Bfs.is_path. rewrite chain_lookup.
  split; intros (Hh & Hl & Hc); (split; [done|]); (split; [done|]);
    intros i a b Ha Hb; apply neighbors_of_elements; by eapply Hc.
Qed.

(** What [bfs] returns on the map of sets [g], whatever the order in which
    each set is iterated. *)
Lemma bfs_linked g stop1 stop2 :
  match Bfs.bfs (elements <$> g) stop1 stop2 with
  | Bfs.OutOfFuel => False
  | Bfs.Return None => ∀ p, ¬ linked g stop1 stop2 p
  | Bfs.Return (Some p) =>
      linked g stop1 stop2 p ∧ NoDup p ∧
      ∀ q, linked g stop1 stop2 q → length p ≤ length q
  end.
Proof.
  pose proof (bfs_correct (elements <$> g) stop1 stop2) as H.
  destruct (Bfs.bfs (elements <$> g) stop1 stop2) as [|[p|]]; [done| |].
  - destruct H as (Hp & Hnd & Hmin).
    split; [by apply linked_is_path|]. split; [done|].
    intros q Hq%linked_is_path.
    pose proof (Hmin _ (path_hops _ _ _ _ Hq)) as Hle.
    destruct Hp as (Hh & _). destruct Hq as (Hh' & _).
    unfold Bfs.hop_count in Hle.
    destruct p; [done|]. destruct q; [done|]. simpl in *. lia.
  - intros p Hp%linked_is_path. eapply H. by apply path_hops.
Qed.

Lemma iterates_sets_adjacent iterate g a b :
  iterates_sets iterate →
  b ∈ Bfs.neighbors_of (iterate g) a ↔ adjacent g a b.
Proof.
  intros Hit. rewrite (Hit g a). unfold adjacent. apply elem_of_elements.
Qed.

Lemma iterates_sets_elements : iterates_sets (fmap elements).
Proof.
  intros g a. unfold Bfs.neighbors_of. rewrite lookup_fmap.
  destruct (g !! a) as [s|]; simpl; [done|]. by rewrite elements_empty.
Qed.

Lemma linked_is_path_in iterate g s e p :
  iterates_sets iterate →
  linked g s e p ↔ Bfs.is_path (iterate g) s e p.
Proof.
  intros Hit. unfold linked, Bfs.is_path. rewrite chain_lookup.
  split; intros (Hh & Hl & Hc); (split; [done|]); (split; [done|]);
    intros i a b Ha Hb; apply (iterates_sets_adjacent iterate g a b Hit);
    by eapply Hc.
Qed.

(** What [bfs] returns on the map of sets [g] when each set is iterated in
    the order [iterate] fixes. *)
Lemma bfs_linked_in iterate g stop1 stop2 :
  iterates_sets iterate →
  match Bfs.bfs (iterate g) stop1 stop2 with
  | Bfs.OutOfFuel => False
  | Bfs.Return None => ∀ p, ¬ linked g stop1 stop2 p
  | Bfs.Return (Some p) =>
      linked g stop1 stop2 p ∧ NoDup p ∧
      ∀ q, linked g stop1 stop2 q → length p ≤ length q
  end.
Proof.
  intros Hit. pose proof (bfs_correct (iterate g) stop1 stop2) as H.
  destruct (Bfs.bfs (iterate g) stop1 stop2) as [|[p|]]; [done| |].
  - destruct H as (Hp & Hnd & Hmin).
    split; [by apply (linked_is_path_in iterate)|]. split; [done|].
    intros q Hq. apply (linked_is_path_in iterate) in Hq; [|done].
    pose proof (Hmin _ (path_hops _ _ _ _ Hq)) as Hle.
    destruct Hp as (Hh & _). destruct Hq as (Hh' & _).
    unfold Bfs.hop_count in Hle.
    destruct p; [done|]. destruct q; [done|]. simpl in *. lia.
  - intros p Hp. apply (linked_is_path_in iterate) in Hp; [|done].
    eapply H. by apply path_hops.
Qed.

Section WithDataSource.

Context {World : Type}.
Variable requests_get :
  string → list (string * string) → World → option response * World.

(** X18.  For every order in which the neighbour sets are iterated: when
    the route search returns, it has not been cut off; a list it returns
    leads from [stop1] to [stop2] along edges of the adjacency map that
    [build_neighbors] returns, repeats no label and is no longer than any
    other such list; [None] means that no such list exists; and under any
    other iteration order the search returns, in the same state, [None]
    as well or a list of the same length. *)
Theorem compute_route_between_every_order iterate stop1 stop2 st res st' :
  iterates_sets iterate →
  compute_route_between_in requests_get iterate stop1 stop2 st
    = (inr res, st') →
  ∃ g,
    build_neighbors requests_get st = (inr g, st') ∧
    match res with
    | Bfs.OutOfFuel => False
    | Bfs.Return None => ∀ p, ¬ linked g stop1 stop2 p
    | Bfs.Return (Some p) =>
        linked g stop1 stop2 p ∧ NoDup p ∧
        ∀ q, linked g stop1 stop2 q → length p ≤ length q
    end ∧
    ∀ iterate', iterates_sets iterate' →
      ∃ res',
        compute_route_between_in requests_get iterate' stop1 stop2 st
          = (inr res', st') ∧
        same_length res res'.
Proof.
  intros Hit. unfold compute_route_between_in, bind.
  destruct (build_neighbors requests_get st) as [[e|g] st1]; [done|].
  intros [= <- <-]. exists g. split; [done|].
  pose proof (bfs_linked_in iterate g stop1 stop2 Hit) as H.
  split; [done|]. intros iterate' Hit'. eexists. split; [done|].
  pose proof (bfs_linked_in iterate' g stop1 stop2 Hit') as H'.
  unfold same_length.
  destruct (Bfs.bfs (iterate g) stop1 stop2) as [|[p|]]; [done| |];
    destruct (Bfs.bfs (iterate' g) stop1 stop2) as [|[p'|]]; try done.
  - destruct H as (Hp & _ & Hmin). destruct H' as (Hp' & _ & Hmin').
    apply Nat.le_antisymm; [by apply Hmin|by apply Hmin'].
  - destruct H as (Hp & _). by apply (H' p).
  - destruct H' as (Hp' & _). by apply (H p').
Qed.

(** X19.  When the Data Source knows no route, both statistics raise
    [ValueError], the stop-to-routes dictionary and the list of transfer
    stops are empty, and the route between two stops is [None] unless the
    two stops are the same label. *)
Theorem no_routes st st' :
  get_all_subway_routes requests_get st = (inr [], st') →
  compute_route_with_least_stops requests_get st = (inl ValueError, st') ∧
  compute_route_with_most_stops requests_get st = (inl ValueError, st') ∧
  get_stop_to_routes requests_get st = (inr [], st') ∧
  q2_transfer_stops requests_get st = (inr [], st') ∧
  ∀ stop1 stop2,
    compute_route_between requests_get stop1 stop2 st =
    (inr (if decide (stop1 = stop2) then Bfs.Return (Some [stop1])
          else Bfs.Return None), st').
Proof.
  intros H.
  unfold compute_route_with_least_stops, compute_route_with_most_stops,
    q2_transfer_stops, compute_route_between, build_neighbors,
    get_route_to_stops, get_stop_to_routes, bind.
  rewrite H. simpl. do 4 (split; [reflexivity|]).
  intros stop1 stop2. rewrite fmap_empty.
  unfold Bfs.bfs, Bfs.bfs_fuel, Bfs.universe. rewrite map_to_list_empty.
  simpl. destruct (decide (stop1 = stop2)); reflexivity.
Qed.

(** X20.  The route line of [q3] is never cut off.  An exception of the
    adjacency builder reaches the caller; otherwise the line is "Route: "
    followed by the labels of a shortest list of linked labels joined by
    " -> ", and when no such list exists, as for a misspelt stop name,
    [join] raises [TypeError]. *)
Theorem route_line_outcome stop1 stop2 st :
  ∃ out st',
    route_line requests_get stop1 stop2 st = Some (out, st') ∧
    match build_neighbors requests_get st with
    | (inl e, st1) => out = inl (Raised e) ∧ st' = st1
    | (inr g, st1) =>
        st' = st1 ∧
        ((∃ p, linked g stop1 stop2 p ∧
               (∀ q, linked g stop1 stop2 q → length p ≤ length q) ∧
               out = inr (String.append "Route: " (String.concat " -> " p))) ∨
         ((∀ p, ¬ linked g stop1 stop2 p) ∧ out = inl TypeError))
    end.
Proof.
  unfold route_line, compute_route_between, bind.
  destruct (build_neighbors requests_get st) as [[e|g] st1].
  - by eexists _, _.
  - unfold ret. pose proof (bfs_linked g stop1 stop2) as H.
    destruct (Bfs.bfs (elements <$> g) stop1 stop2) as [|[p|]]; [done| |].
    + eexists _, _. split; [done|]. split; [done|]. left.
      destruct H as (Hp & _ & Hmin). by exists p.
    + eexists _, _. split; [done|]. split; [done|]. by right.
Qed.

End WithDataSource.

Lemma compute_route_between_every_order_witness :
  ∃ g,
    build_neighbors scenario_source (init tt)
      = (inr g, (build_neighbors scenario_source (init tt)).2) ∧
    (linked g "Ashmont" "Arlington" ["Ashmont"; "Red"; "Arlington"] ∧
     NoDup ["Ashmont"; "Red"; "Arlington"] ∧
     ∀ q, linked g "Ashmont" "Arlington" q →
          length ["Ashmont"; "Red"; "Arlington"] ≤ length q) ∧
    ∀ iterate', iterates_sets iterate' →
      ∃ res',
        compute_route_between_in scenario_source iterate'
          "Ashmont" "Arlington" (init tt)
          = (inr res', (build_neighbors scenario_source (init tt)).2) ∧
        same_length (Bfs.Return (Some ["Ashmont"; "Red"; "Arlington"])) res'.
Proof.
  apply (compute_route_between_every_order scenario_source (fmap elements)
           "Ashmont" "Arlington" (init tt)
           (Bfs.Return (Some ["Ashmont"; "Red"; "Arlington"]))).
  - apply iterates_sets_elements.
  - vm_cast_no_check
      (eq_refl (compute_route_between_in scenario_source (fmap elements)
                  "Ashmont" "Arlington" (init tt))).
Defined.

Lemma no_routes_witness :
  compute_route_with_least_stops no_routes_source (init tt)
    = (inl ValueError, (get_all_subway_routes no_routes_source (init tt)).2) ∧
  compute_route_with_most_stops no_routes_source (init tt)
    = (inl ValueError, (get_all_subway_routes no_routes_source (init tt)).2) ∧
  get_stop_to_routes no_routes_source (init tt)
    = (inr [], (get_all_subway_routes no_routes_source (init tt)).2) ∧
  q2_transfer_stops no_routes_source (init tt)
    = (inr [], (get_all_subway_routes no_routes_source (init tt)).2) ∧
  ∀ stop1 stop2,
    compute_route_between no_routes_source stop1 stop2 (init tt) =
    (inr (if decide (stop1 = stop2) then Bfs.Return (Some [stop1])
          else Bfs.Return None),
     (get_all_subway_routes no_routes_source (init tt)).2).
Proof.
  apply (no_routes no_routes_source (init tt)).
  vm_compute. reflexivity.
Defined.

(** A misspelt stop name makes the route line of [q3] raise. *)
Example route_line_misspelt :
  (λ r, fst <$> r) (route_line scenario_source "Ashmont" "Arlingtn" (init tt))
    = Some (inl TypeError).
Proof. vm_compute. reflexivity. Qed.

Example route_line_scenario :
  (λ r, fst <$> r) (route_line scenario_source "Ashmont" "Arlington" (init tt))
    = Some (inr "Route: Ashmont -> Red -> Arlington").
Proof. vm_compute. reflexivity. Qed.

End RouteMore.

(** ** The statistics within a run of [q2] *)

Module StatisticsMore.
Import Fetch Stats Adjacency Records StatsFacts StatsMore FetchFacts
  AdjacencyFacts AnalysesFacts RecordsFacts.

Section WithDataSource.

Context {World : Type}.
Variable requests_get :
  string → list (string * string) → World → option response * World.

(** X21.  Within [q2]: once [compute_route_with_most_stops] has returned,
    [compute_route_with_least_stops] and the transfer-stop listing return
    from the cache, leaving the state as it is, and the least count is at
    most the greatest. *)
Theorem q2_later_steps_from_cache st most st1 :
  compute_route_with_most_stops requests_get st = (inr most, st1) →
  ∃ least transfers,
    compute_route_with_least_stops requests_get st1 = (inr least, st1) ∧
    q2_transfer_stops requests_get st1 = (inr transfers, st1) ∧
    least.2 ≤ most.2.
Proof.
  unfold compute_route_with_most_stops. unfold bind at 1.
  destruct (get_route_to_stops requests_get st) as [[e|d] st0] eqn:Hd;
    [done|].
  unfold lift. intros [= Hmost <-].
  apply get_route_to_stops_spec in Hd as (_ & routes & stopss & Hl & ->).
  destruct (analyses_cached requests_get st0 routes stopss Hl)
    as (Hrts & Hstr & _).
  set (d := route_to_stops_of routes stopss) in *.
  assert (Hne : d ≠ []) by (intros E; by rewrite E in Hmost).
  destruct (route_with_least_stops_spec d Hne) as (r1 & H1 & Hk1 & Hmin).
  destruct (route_with_most_stops_spec d Hne) as (r2 & H2 & Hk2 & Hmax).
  exists (r1, num_stops d r1), (transfer_stops (stop_to_routes_of routes stopss)).
  split; [|split].
  - unfold compute_route_with_least_stops, bind. rewrite Hrts.
    unfold lift. by rewrite H1.
  - unfold q2_transfer_stops, bind. by rewrite Hstr.
  - rewrite H2 in Hmost. injection Hmost as <-. simpl. by apply Hmin.
Qed.

End WithDataSource.

Lemma q2_later_steps_from_cache_witness :
  ∃ least transfers,
    compute_route_with_least_stops scenario_source
      (compute_route_with_most_stops scenario_source (init tt)).2
      = (inr least,
         (compute_route_with_most_stops scenario_source (init tt)).2) ∧
    q2_transfer_stops scenario_source
      (compute_route_with_most_stops scenario_source (init tt)).2
      = (inr transfers,
         (compute_route_with_most_stops scenario_source (init tt)).2) ∧
    least.2 ≤ ("Red", 3).2.
Proof.
  apply (q2_later_steps_from_cache scenario_source (init tt) ("Red", 3)).
  vm_compute. reflexivity.
Defined.

End StatisticsMore.
